(** * Majel: a shallow embedding of [legacy/majel.py]

    The program fetches a spreadsheet, serializes it to CSV text, builds a
    system prompt around that text and runs a read-eval-print loop against
    a remote chat session.  This development embeds the four functions of
    the module ([get_sheets_service], [fetch_roster_context],
    [build_system_prompt], [main]) together with the parts of the Python
    standard library they call ([str.strip], [str.lower], [csv.writer],
    [csv.reader]) and proves the properties stated for them.

    Layout: definitions first (Python strings, the csv module, exceptions
    and the world monad, the four functions), then the lemmas and theorems. *)

From Stdlib Require Import String Ascii.
From Stdlib Require Import List NArith Bool Arith Lia.
Import ListNotations.

(* ================================================================== *)
(** ** Python strings *)

(** A Python [str] is a sequence of Unicode code points. *)
Definition Py_UCS4 := N.
Definition str := list Py_UCS4.

(** An ASCII literal, character by character. *)
Definition lit (s : string) : str :=
  map N_of_ascii (list_ascii_of_string s).

Definition LF : Py_UCS4 := 10%N.
Definition CR : Py_UCS4 := 13%N.
Definition DQUOTE : Py_UCS4 := 34%N.
Definition COMMA : Py_UCS4 := 44%N.

Definition str_eqb (a b : str) : bool :=
  if list_eq_dec N.eq_dec a b then true else false.

(* ================================================================== *)
(** ** The csv module, excel dialect

    [csv.writer(output)] at line 63 uses the default dialect: delimiter
    a comma, quotechar a double quote, doublequote on, no escapechar,
    lineterminator CR LF, QUOTE_MINIMAL, not strict.  The writer and the reader below
    follow CPython's [_csv.c] (3.11 and later, where a NUL is a character
    like any other) specialised to that dialect; the states of the reader
    that only an escapechar can reach are left out, and so is the reader's
    configurable field size limit.  The cells are text: a row is a list
    of [str]. *)

Module Csv.

Definition delimiter : Py_UCS4 := COMMA.
Definition quotechar : Py_UCS4 := DQUOTE.
Definition lineterminator : str := [CR; LF].

(** *** Writer *)

Record WriterObj := mkWriter {
  rec : str;            (* the record buffer *)
  num_fields : nat
}.

Definition join_reset : WriterObj := mkWriter [] 0.

(** The characters that force quoting under QUOTE_MINIMAL. *)
Definition special (c : Py_UCS4) : bool :=
  N.eqb c delimiter || N.eqb c quotechar || N.eqb c CR || N.eqb c LF.

(** First pass of [join_append_data] (copy_phase = 0): decides [*quoted]. *)
Fixpoint join_scan (field : str) (quoted : bool) : bool :=
  match field with
  | [] => quoted
  | c :: rest => join_scan rest (quoted || special c)
  end.

(** The loop of [join_append_data] in its copy phase: every character is
    copied, a quotechar is preceded by a second quotechar. *)
Fixpoint join_copy (field : str) : str :=
  match field with
  | [] => []
  | c :: rest =>
      (if N.eqb c quotechar then [quotechar; c] else [c]) ++ join_copy rest
  end.

(** Second pass of [join_append_data] (copy_phase = 1). *)
Definition join_append_data (self : WriterObj) (field : str) (quoted : bool)
  : str :=
  (if Nat.ltb 0 (num_fields self) then [delimiter] else [])
  ++ (if quoted then [quotechar] else [])
  ++ join_copy field
  ++ (if quoted then [quotechar] else []).

Definition join_append (self : WriterObj) (field : str) (quoted : bool)
  : WriterObj :=
  let q := join_scan field quoted in
  mkWriter (rec self ++ join_append_data self field q)
           (S (num_fields self)).

(** [csv_writerow]: the fields are appended in turn; a record made of one
    empty field is written as a quoted empty field; the line terminator
    closes the record. *)
Definition writerow (seq : list str) : str :=
  let self := fold_left (fun w field => join_append w field false)
                        seq join_reset in
  let self :=
    if Nat.ltb 0 (num_fields self) && Nat.eqb (length (rec self)) 0
    then join_append (mkWriter (rec self) (pred (num_fields self))) [] true
    else self in
  rec self ++ lineterminator.

(** [csv_writerows]: one [writerow] per row, written to the same stream. *)
Definition writerows (rows : list (list str)) : str :=
  concat (map writerow rows).

(** *** Reader *)

Inductive ParserState :=
| START_RECORD
| START_FIELD
| IN_FIELD
| IN_QUOTED_FIELD
| QUOTE_IN_QUOTED_FIELD
| EAT_CRNL.

Definition ParserState_eqb (a b : ParserState) : bool :=
  match a, b with
  | START_RECORD, START_RECORD
  | START_FIELD, START_FIELD
  | IN_FIELD, IN_FIELD
  | IN_QUOTED_FIELD, IN_QUOTED_FIELD
  | QUOTE_IN_QUOTED_FIELD, QUOTE_IN_QUOTED_FIELD
  | EAT_CRNL, EAT_CRNL => true
  | _, _ => false
  end.

Record ReaderObj := mkReader {
  state : ParserState;
  fields : list str;    (* the fields of the record so far *)
  field : str           (* the field buffer *)
}.

(** What [parse_process_char] is given: a character of the line, or the
    end-of-line marker that follows the last character of each line. *)
Inductive pchar :=
| Chr (c : Py_UCS4)
| EOL.

Definition parse_reset : ReaderObj := mkReader START_RECORD [] [].

Definition parse_save_field (self : ReaderObj) : ReaderObj :=
  mkReader (state self) (fields self ++ [field self]) [].

Definition parse_add_char (self : ReaderObj) (c : Py_UCS4) : ReaderObj :=
  mkReader (state self) (fields self) (field self ++ [c]).

Definition set_state (self : ReaderObj) (s : ParserState) : ReaderObj :=
  mkReader s (fields self) (field self).

Definition is_newline (c : pchar) : bool :=
  match c with
  | Chr c => N.eqb c LF || N.eqb c CR
  | EOL => false
  end.

Definition is_chr (c : pchar) (d : Py_UCS4) : bool :=
  match c with
  | Chr c => N.eqb c d
  | EOL => false
  end.

Definition is_eol (c : pchar) : bool :=
  match c with
  | Chr _ => false
  | EOL => true
  end.

(** [case START_FIELD] of [parse_process_char]. *)
Definition start_field (self : ReaderObj) (c : pchar) : ReaderObj :=
  if is_newline c || is_eol c then
    set_state (parse_save_field self)
              (if is_eol c then START_RECORD else EAT_CRNL)
  else if is_chr c quotechar then
    set_state self IN_QUOTED_FIELD
  else if is_chr c delimiter then
    parse_save_field self
  else
    match c with
    | Chr c => set_state (parse_add_char self c) IN_FIELD
    | EOL => self
    end.

(** [parse_process_char]; [None] is [csv.Error]. *)
Definition parse_process_char (self : ReaderObj) (c : pchar)
  : option ReaderObj :=
  match state self with
  | START_RECORD =>
      if is_eol c then Some self
      else if is_newline c then Some (set_state self EAT_CRNL)
      else (* fall through *) Some (start_field (set_state self START_FIELD) c)
  | START_FIELD => Some (start_field self c)
  | IN_FIELD =>
      if is_newline c || is_eol c then
        Some (set_state (parse_save_field self)
                        (if is_eol c then START_RECORD else EAT_CRNL))
      else if is_chr c delimiter then
        Some (set_state (parse_save_field self) START_FIELD)
      else
        match c with
        | Chr c => Some (parse_add_char self c)
        | EOL => Some self
        end
  | IN_QUOTED_FIELD =>
      match c with
      | EOL => Some self
      | Chr c =>
          if N.eqb c quotechar then Some (set_state self QUOTE_IN_QUOTED_FIELD)
          else Some (parse_add_char self c)
      end
  | QUOTE_IN_QUOTED_FIELD =>
      if is_chr c quotechar then
        match c with
        | Chr c => Some (set_state (parse_add_char self c) IN_QUOTED_FIELD)
        | EOL => Some self
        end
      else if is_chr c delimiter then
        Some (set_state (parse_save_field self) START_FIELD)
      else if is_newline c || is_eol c then
        Some (set_state (parse_save_field self)
                        (if is_eol c then START_RECORD else EAT_CRNL))
      else
        match c with
        | Chr c => Some (set_state (parse_add_char self c) IN_FIELD)
        | EOL => Some self
        end
  | EAT_CRNL =>
      if is_newline c then Some self
      else if is_eol c then Some (set_state self START_RECORD)
      else None
  end.

(** The inner [while (linelen--)] loop of [Reader_iternext]. *)
Fixpoint parse_line (self : ReaderObj) (line : str) : option ReaderObj :=
  match line with
  | [] => Some self
  | c :: rest =>
      match parse_process_char self (Chr c) with
      | Some self' => parse_line self' rest
      | None => None
      end
  end.

(** [list(csv.reader(lines))]: [Reader_iternext] takes lines from the
    input iterator until the parser is back in [START_RECORD], and yields
    the fields; the next call starts from [parse_reset].  When the input
    runs out inside a record, the pending field is saved and the record
    yielded if the field buffer is not empty or a quoted field is open.
    [None] is [csv.Error]. *)
Fixpoint reader_rows (self : ReaderObj) (lines : list str)
  : option (list (list str)) :=
  match lines with
  | [] =>
      if negb (Nat.eqb (length (field self)) 0)
         || ParserState_eqb (state self) IN_QUOTED_FIELD
      then Some [fields (parse_save_field self)]
      else Some []
  | line :: rest =>
      match parse_line self line with
      | None => None
      | Some s1 =>
          match parse_process_char s1 EOL with
          | None => None
          | Some s2 =>
              if ParserState_eqb (state s2) START_RECORD then
                option_map (cons (fields s2)) (reader_rows parse_reset rest)
              else reader_rows s2 rest
          end
      end
  end.

(** How a text stream is cut into lines. *)
Inductive Newline :=
| Universal     (* io.StringIO(text, newline=''): CR, LF and CR LF end a
                   line and are kept *)
| OnlyLF.       (* io.StringIO(text): LF ends a line *)

(** Whether a line ends after [c], given the text that follows it. *)
Definition line_ends (nl : Newline) (c : Py_UCS4) (rest : str) : bool :=
  if N.eqb c LF then true
  else if N.eqb c CR then
    match nl with
    | Universal =>
        match rest with
        | d :: _ => negb (N.eqb d LF)
        | [] => true
        end
    | OnlyLF => false
    end
  else false.

(** The lines a text stream iterates over, line ends kept; [cur] is the
    line being collected. *)
Fixpoint readlines_from (nl : Newline) (cur : str) (text : str) : list str :=
  match text with
  | [] => match cur with [] => [] | _ => [cur] end
  | c :: rest =>
      if line_ends nl c rest then (cur ++ [c]) :: readlines_from nl [] rest
      else readlines_from nl (cur ++ [c]) rest
  end.

Definition readlines (nl : Newline) (text : str) : list str :=
  readlines_from nl [] text.

(** [list(csv.reader(io.StringIO(text, newline=...)))]. *)
Definition reader (nl : Newline) (text : str) : option (list (list str)) :=
  reader_rows parse_reset (readlines nl text).

End Csv.

(* ================================================================== *)
(** ** [str.strip], [str.lower], formatting *)

(** [str.isspace] on one code point ([_PyUnicode_IsWhitespace]). *)
Definition isspace (c : Py_UCS4) : bool :=
  ((9 <=? c) && (c <=? 13) || (28 <=? c) && (c <=? 32)
   || (c =? 133) || (c =? 160) || (c =? 5760)
   || (8192 <=? c) && (c <=? 8202)
   || (c =? 8232) || (c =? 8233) || (c =? 8239) || (c =? 8287)
   || (c =? 12288))%N.

Fixpoint lstrip (s : str) : str :=
  match s with
  | [] => []
  | c :: rest => if isspace c then lstrip rest else s
  end.

Definition rstrip (s : str) : str := rev (lstrip (rev s)).

(** [s.strip()]: leading, then trailing whitespace is dropped. *)
Definition strip (s : str) : str := rstrip (lstrip s).

(** The lowercase mapping of the code points outside ASCII is Unicode
    data that this development does not carry: it is a parameter.
    [ToLowerFull s i] is what [str.lower] produces for the code point at
    index [i] of [s] (one to three code points; the whole string is an
    argument because of the final-sigma rule). *)
Class UnicodeData := {
  ToLowerFull : str -> nat -> str
}.

Definition ascii_tolower (c : Py_UCS4) : Py_UCS4 :=
  if ((65 <=? c) && (c <=? 90))%N then (c + 32)%N else c.

Fixpoint lower_from `{UnicodeData} (whole : str) (i : nat) (s : str) : str :=
  match s with
  | [] => []
  | c :: rest =>
      (if (c <? 128)%N then [ascii_tolower c] else ToLowerFull whole i)
      ++ lower_from whole (S i) rest
  end.

(** [s.lower()]. *)
Definition lower `{UnicodeData} (s : str) : str := lower_from s 0 s.

Fixpoint uint_digits (d : Decimal.uint) : str :=
  match d with
  | Decimal.Nil => []
  | Decimal.D0 d => 48%N :: uint_digits d
  | Decimal.D1 d => 49%N :: uint_digits d
  | Decimal.D2 d => 50%N :: uint_digits d
  | Decimal.D3 d => 51%N :: uint_digits d
  | Decimal.D4 d => 52%N :: uint_digits d
  | Decimal.D5 d => 53%N :: uint_digits d
  | Decimal.D6 d => 54%N :: uint_digits d
  | Decimal.D7 d => 55%N :: uint_digits d
  | Decimal.D8 d => 56%N :: uint_digits d
  | Decimal.D9 d => 57%N :: uint_digits d
  end.

Fixpoint thousands (digits : str) : str :=
  match digits with
  | [] => []
  | d :: rest =>
      d :: (match rest with
            | [] => []
            | _ => if Nat.eqb (Nat.modulo (length rest) 3) 0
                   then COMMA :: thousands rest else thousands rest
            end)
  end.

(** The format spec [:,] applied to a length. *)
Definition format_comma (n : nat) : str := thousands (uint_digits (Nat.to_uint n)).

(* ================================================================== *)
(** ** Exceptions, the world, the monad *)

(** The exception classes the handlers of [main] tell apart.  Every
    exception raised by a call the program makes is an instance of
    [Exception]; the interrupt signal is the one [BaseException] outside
    that class that reaches the program. *)
Inductive ExceptionClass :=
| FileNotFoundError
| OtherException.

Record Exception := mkException {
  exc_class : ExceptionClass;
  exc_str : str                    (* str(e) *)
}.

Inductive BaseException :=
| KeyboardInterrupt
| Exc (e : Exception).

Inductive result (E A : Type) :=
| Ok (a : A)
| Raise (e : E).
Arguments Ok {E A} a.
Arguments Raise {E A} e.

Record Credentials := mkCredentials {
  valid : bool;
  expired : bool;
  refresh_token : option str
}.

Definition RosterTable := list (list str).

Inductive Role :=
| user
| model.

(** The statements of the [while] loop of [main], by line. *)
Inductive Site :=
| L115 | L116 | L118 | L119 | L122 | L123 | L126 | L129.

(** What the program does to the outside, in order. *)
Inductive Event :=
| Print (s : str)                       (* print(s) *)
| Input (prompt : str)                  (* input(prompt) *)
| SendMessage (msg : str)               (* chat.send_message(msg) *)
| Sigint (site : Site)                  (* an interrupt delivered there *)
| SheetsGet (spreadsheet_id range : str)  (* ...get(...).execute() *)
| CsvWriterows (values : RosterTable)   (* writer.writerows(values) *)
| StartChat (api_key system_instruction : str).

Record World := mkWorld {
  token_json : option Credentials;      (* the file token.json *)
  history : list (Role * str);          (* the history of the chat session *)
  trace : list Event
}.

(** What the outside answers before the chat starts. *)
Record Env := mkEnv {
  environ : str -> option str;          (* os.environ *)
  client_secrets_file : bool;           (* credentials.json exists *)
  refresh : Credentials -> result Exception Credentials;
  run_local_server : result Exception Credentials;
  execute : str -> str -> result Exception (option RosterTable)
                                        (* the entry 'values' of the reply *)
}.

(** What the outside does during one iteration of the loop. *)
Record Turn := mkTurn {
  stdin : result Exception str;         (* what input() does *)
  remote : list (Role * str) -> str -> result Exception str;
                                        (* what send_message(msg).text does *)
  sigint : Site -> bool                 (* an interrupt arrives while the
                                           statement runs *)
}.

Definition M (A : Type) : Type := World -> World * result BaseException A.

Definition ret {A} (a : A) : M A := fun w => (w, Ok a).

Definition bind {A B} (m : M A) (k : A -> M B) : M B :=
  fun w =>
    match m w with
    | (w', Ok a) => k a w'
    | (w', Raise e) => (w', Raise e)
    end.

Notation "x <- m ;; k" := (bind m (fun x => k))
  (at level 61, m at next level, right associativity).
Notation "m ;;; k" := (bind m (fun _ => k))
  (at level 61, right associativity).

Definition log (ev : Event) : M unit :=
  fun w => (mkWorld (token_json w) (history w) (trace w ++ [ev]), Ok tt).

Definition raise {A} (e : BaseException) : M A := fun w => (w, Raise e).

(** The outcome of an outside call enters the monad. *)
Definition lift {A} (r : result Exception A) : M A :=
  match r with
  | Ok a => ret a
  | Raise e => raise (Exc e)
  end.

Definition print_ (s : str) : M unit := log (Print s).

(** A statement of the loop: an interrupt delivered while it runs raises
    [KeyboardInterrupt] in its place.  For the two blocking calls
    ([input], [send_message]) the call has been made when the interrupt
    arrives: the prompt is out, the message is sent. *)
Definition at_ {A} (t : Turn) (site : Site) (m : M A) : M A :=
  if sigint t site then log (Sigint site) ;;; raise KeyboardInterrupt
  else m.

(* ================================================================== *)
(** ** Configuration (lines 18-28) *)

Definition environ_get (env : Env) (key default : str) : str :=
  match environ env key with
  | Some v => v
  | None => default
  end.

Definition SPREADSHEET_ID (env : Env) : str :=
  environ_get env (lit "MAJEL_SPREADSHEET_ID") (lit "YOUR_SPREADSHEET_ID_HERE").
Definition RANGE_NAME (env : Env) : str :=
  environ_get env (lit "MAJEL_SHEET_RANGE") (lit "Sheet1!A1:Z1000").
Definition GEMINI_API_KEY (env : Env) : str :=
  environ_get env (lit "GEMINI_API_KEY") (lit "YOUR_GEMINI_API_KEY").

(* ================================================================== *)
(** ** [get_sheets_service] (lines 31-48) *)

(** [InstalledAppFlow.from_client_secrets_file(CLIENT_SECRETS_FILE, ...)]
    opens the file. *)
Definition from_client_secrets_file (env : Env) : M unit :=
  if client_secrets_file env then ret tt
  else raise (Exc (mkException FileNotFoundError
         (lit "[Errno 2] No such file or directory: 'credentials.json'"))).

Definition truthy (o : option str) : bool :=
  match o with
  | Some (_ :: _) => true
  | _ => false
  end.

Definition write_token (creds : Credentials) : M unit :=
  fun w => (mkWorld (Some creds) (history w) (trace w), Ok tt).

(** The service is built from the credentials it is given. *)
Definition get_sheets_service (env : Env) : M Credentials :=
  fun w =>
    let creds := token_json w in
    match creds with
    | Some c =>
        if valid c then ret c w
        else
          (c' <- (if expired c && truthy (refresh_token c)
                  then lift (refresh env c)
                  else from_client_secrets_file env ;;;
                       lift (run_local_server env)) ;;
           write_token c' ;;;
           ret c') w
    | None =>
        (c' <- (from_client_secrets_file env ;;;
                lift (run_local_server env)) ;;
         write_token c' ;;;
         ret c') w
    end.

(* ================================================================== *)
(** ** [fetch_roster_context] (lines 51-65) *)

Definition NO_DATA : str := lit "No data found in spreadsheet.".

Definition fetch_roster_context (env : Env) : M str :=
  service <- get_sheets_service env ;;
  log (SheetsGet (SPREADSHEET_ID env) (RANGE_NAME env)) ;;;
  result <- lift (execute env (SPREADSHEET_ID env) (RANGE_NAME env)) ;;
  let values := match result with Some v => v | None => [] end in
  match values with
  | [] => ret NO_DATA
  | _ =>
      log (CsvWriterows values) ;;;
      ret (Csv.writerows values)
  end.

(* ================================================================== *)
(** ** [build_system_prompt] (lines 68-84) *)

Definition PROMPT_HEAD : str :=
  lit "You are Majel, the Fleet Intelligence System for Admiral Guff." ++ [LF; LF]
  ++ lit "DATA SOURCE:" ++ [LF]
  ++ lit "You have access to a specific dataset of Star Trek Fleet Command officers provided below in CSV format." ++ [LF; LF]
  ++ lit "RULES:" ++ [LF]
  ++ lit "1. TRUTH: Use ONLY the provided CSV data to answer questions about officers." ++ [LF]
  ++ lit "2. UNKNOWN: If the answer is not in the CSV, state " ++ [DQUOTE]
  ++ lit "Data not available in current roster." ++ [DQUOTE]
  ++ lit " Do not guess based on external Star Trek lore." ++ [LF]
  ++ lit "3. CITATION: When providing stats or details, cite the spreadsheet Row Number (if available) or the specific Officer Name to verify the source." ++ [LF]
  ++ lit "4. DETERMINISM: Be concise and factual. No fluff." ++ [LF; LF]
  ++ lit "--- BEGIN ROSTER DATA ---" ++ [LF].

Definition PROMPT_TAIL : str :=
  [LF] ++ lit "--- END ROSTER DATA ---" ++ [LF].

Definition build_system_prompt (roster_csv : str) : str :=
  PROMPT_HEAD ++ roster_csv ++ PROMPT_TAIL.

(* ================================================================== *)
(** ** [main] (lines 87-129) *)

Definition HAND : Py_UCS4 := 128406%N.      (* U+1F596 *)

Definition FAREWELL : str :=
  lit "Majel offline. Live long and prosper. " ++ [HAND].

Definition EXIT_WORDS : list str := [lit "exit"; lit "quit"; lit "q"].

Definition in_list (s : str) (l : list str) : bool := existsb (str_eqb s) l.

(** [chat.send_message(msg).text]: the session appends the two turns to
    its history when the call succeeds. *)
Definition send_message (t : Turn) (msg : str) : M str :=
  log (SendMessage msg) ;;;
  at_ t L122
    (fun w =>
       match remote t (history w) msg with
       | Ok text =>
           (mkWorld (token_json w)
                    (history w ++ [(user, msg); (model, text)])
                    (trace w), Ok text)
       | Raise e => (w, Raise (Exc e))
       end).

Definition input (t : Turn) (prompt : str) : M str :=
  log (Input prompt) ;;; at_ t L115 (lift (stdin t)).

(** How the body of the loop ends. *)
Inductive Flow :=
| Next       (* fell off the end, or [continue] *)
| Break.

(** Lines 115-123, the body of the [try]. *)
Definition try_body `{UnicodeData} (t : Turn) : M Flow :=
  line <- input t (lit "Admiral > ") ;;
  let user_input := strip line in
  at_ t L116 (ret tt) ;;;
  match user_input with
  | [] => ret Next
  | _ =>
      at_ t L118 (ret tt) ;;;
      if in_list (lower user_input) EXIT_WORDS then
        at_ t L119 (print_ FAREWELL) ;;;
        ret Break
      else
        response <- send_message t user_input ;;
        at_ t L123 (print_ ([LF] ++ lit "Majel > " ++ response ++ [LF])) ;;;
        ret Next
  end.

(** Lines 114-129: the [try] with its two handlers.  An exception raised
    inside a handler leaves the statement. *)
Definition loop_iteration `{UnicodeData} (t : Turn) : M Flow :=
  fun w =>
    match try_body t w with
    | (w', Ok f) => (w', Ok f)
    | (w', Raise KeyboardInterrupt) =>
        (at_ t L126 (print_ ([LF; LF] ++ FAREWELL)) ;;;
         ret Break) w'
    | (w', Raise (Exc e)) =>
        (at_ t L129 (print_ ([LF; 9888%N; 65039%N] ++ lit " Error: "
                             ++ exc_str e ++ [LF])) ;;;
         ret Next) w'
    end.

(** The states of the chat loop once it runs. *)
Inductive Status :=
| AWAITING_INPUT                 (* blocked in input(), nothing more to read *)
| OFFLINE                        (* the loop was left by [break] *)
| TRACEBACK (e : BaseException). (* an exception left the loop *)

(** [while True] over the turns the outside provides. *)
Fixpoint chat_loop `{UnicodeData} (script : list Turn) (w : World)
  : World * Status :=
  match script with
  | [] => (w, AWAITING_INPUT)
  | t :: rest =>
      match loop_iteration t w with
      | (w', Ok Next) => chat_loop rest w'
      | (w', Ok Break) => (w', OFFLINE)
      | (w', Raise e) => (w', TRACEBACK e)
      end
  end.

(** How the process ends. *)
Inductive Exit :=
| Running                        (* still blocked in input() *)
| ExitSuccess                    (* [main] returned: exit code 0 *)
| Uncaught (e : BaseException).  (* traceback, non-zero exit code *)

Definition exit_of (s : Status) : Exit :=
  match s with
  | AWAITING_INPUT => Running
  | OFFLINE => ExitSuccess
  | TRACEBACK e => Uncaught e
  end.

Definition start_chat (api_key system_instruction : str) : M unit :=
  fun w => (mkWorld (token_json w) [] (trace w ++ [StartChat api_key system_instruction]), Ok tt).

(** Lines 102-111: the session is configured and opened. *)
Definition go_online (env : Env) (roster_csv : str) : M unit :=
  start_chat (GEMINI_API_KEY env) (build_system_prompt roster_csv) ;;;
  print_ ([LF; HAND] ++ lit " Majel online. Awaiting input. (Type 'exit' to quit)" ++ [LF]).

Definition main `{UnicodeData} (env : Env) (script : list Turn) (w : World)
  : World * Exit :=
  match (print_ ([9889%N] ++ lit " Majel initializing... Connecting to Starfleet Database (Google Sheets)...") ;;;
         roster_csv <- fetch_roster_context env ;;
         print_ ([9989%N] ++ lit " Roster loaded (" ++ format_comma (length roster_csv)
                 ++ lit " chars). Initializing neural interface...") ;;;
         ret roster_csv) w with
  | (w1, Raise (Exc e)) =>
      match exc_class e with
      | FileNotFoundError =>
          match (print_ ([10060%N] ++ lit " credentials.json not found.") ;;;
                 print_ (lit "   Download from: Google Cloud Console -> APIs & Services -> Credentials") ;;;
                 print_ (lit "   Place in this directory and run again.")) w1 with
          | (w2, _) => (w2, ExitSuccess)
          end
      | OtherException =>
          match print_ ([10060%N] ++ lit " Failed to fetch roster: " ++ exc_str e) w1 with
          | (w2, _) => (w2, ExitSuccess)
          end
      end
  | (w1, Raise KeyboardInterrupt) => (w1, Uncaught KeyboardInterrupt)
  | (w1, Ok roster_csv) =>
      match go_online env roster_csv w1 with
      | (w2, Ok _) =>
          let (w3, s) := chat_loop script w2 in (w3, exit_of s)
      | (w2, Raise e) => (w2, Uncaught e)
      end
  end.

(* ================================================================== *)
(** ** Definitions used to state and prove the properties *)

Module CsvSpec.
Import Csv.

(** A field as standard CSV quoting writes it: as it is, or between
    quotes with every embedded quote doubled. *)
Definition double_quotes (f : str) : str :=
  flat_map (fun c => if N.eqb c DQUOTE then [DQUOTE; DQUOTE] else [c]) f.

Definition needs_quotes (f : str) : bool := existsb special f.

Definition csv_field (f : str) : str :=
  if needs_quotes f then [DQUOTE] ++ double_quotes f ++ [DQUOTE] else f.

Definition join_fields (fs : list str) : str :=
  match fs with
  | [] => []
  | f :: rest => f ++ concat (map (fun g => COMMA :: g) rest)
  end.

(** A row as the writer lays it out; the row made of one empty field is
    written as a quoted empty field. *)
Definition csv_row (row : list str) : str :=
  match row with
  | [ [] ] => [DQUOTE; DQUOTE]
  | _ => join_fields (map csv_field row)
  end ++ [CR; LF].

(** The reader run over the characters of the text, the end-of-line
    marker fed where the stream ends a line; [partial] tells whether a
    line has been started. *)
Fixpoint feed (nl : Newline) (self : ReaderObj) (partial : bool) (text : str)
  : option (list (list str)) :=
  match text with
  | [] => reader_rows self (if partial then [[]] else [])
  | c :: rest =>
      match parse_process_char self (Chr c) with
      | None => None
      | Some s1 =>
          if line_ends nl c rest then
            match parse_process_char s1 EOL with
            | None => None
            | Some s2 =>
                if ParserState_eqb (state s2) START_RECORD then
                  option_map (cons (fields s2)) (feed nl parse_reset false rest)
                else feed nl s2 false rest
            end
          else feed nl s1 true rest
      end
  end.

(** The parser has read the field [f] and waits for what ends it. *)
Inductive field_read (fs : list str) (f : str) : ReaderObj -> Prop :=
| fr_plain : field_read fs f (mkReader IN_FIELD fs f)
| fr_quoted : field_read fs f (mkReader QUOTE_IN_QUOTED_FIELD fs f)
| fr_empty : f = [] -> field_read fs f (mkReader START_FIELD fs []).

End CsvSpec.

(** The world with more events in its trace, nothing else changed. *)
Definition with_trace (w : World) (evs : list Event) : World :=
  mkWorld (token_json w) (history w) (trace w ++ evs).

(** No interrupt arrives during the turn. *)
Definition no_sigint (t : Turn) : Prop := forall site, sigint t site = false.

(** Equality up to the case of the ASCII letters. *)
Definition caseless_eq (a b : str) : Prop :=
  map ascii_tolower a = map ascii_tolower b.

(** A text that neither starts nor ends with whitespace. *)
Definition trimmed (s : str) : Prop :=
  match s with
  | [] => True
  | c :: _ => isspace c = false /\ isspace (last s c) = false
  end.

(** The cached credential can be used without the client-secret file:
    it is valid, or it is expired and carries a refresh token. *)
Definition usable_token (w : World) : bool :=
  match token_json w with
  | Some c => valid c || expired c && truthy (refresh_token c)
  | None => false
  end.

(** The events [loop_iteration] adds to the trace. *)
Definition emitted `{UnicodeData} (t : Turn) (w : World) : list Event :=
  skipn (length (trace w)) (trace (fst (loop_iteration t w))).

(** The turn in which [input] returns [line]. *)
Definition with_stdin (t : Turn) (line : str) : Turn :=
  mkTurn (Ok line) (remote t) (sigint t).

Definition PROMPT : str := lit "Admiral > ".

Definition ERROR_REPORT (e : Exception) : str :=
  [LF; 9888%N; 65039%N] ++ lit " Error: " ++ exc_str e ++ [LF].

(** What [main] prints outside the loop. *)
Definition MSG_INIT : str :=
  [9889%N] ++ lit " Majel initializing... Connecting to Starfleet Database (Google Sheets)...".



(** The events of the API call of the fetcher. *)
Definition SHEETS_GET (env : Env) : Event :=
  SheetsGet (SPREADSHEET_ID env) (RANGE_NAME env).

(** *** Data for the examples *)

(** Unicode data that maps every code point to itself. *)
Definition no_case : UnicodeData :=
  {| ToLowerFull := fun s i => firstn 1 (skipn i s) |}.

Definition sample_creds : Credentials := mkCredentials true false None.

Definition sample_table : RosterTable :=
  [[lit "Name"; lit "Rank, Grade"]; [lit "Kirk"; [DQUOTE] ++ lit "Captain" ++ [DQUOTE; LF]]; [];
   [[]]].

Definition sample_env (reply : result Exception (option RosterTable)) : Env :=
  mkEnv (fun _ => None) false
        (fun c => Ok c)
        (Raise (mkException OtherException (lit "access denied")))
        (fun _ _ => reply).

Definition fresh_world : World := mkWorld None [] [].
Definition cached_world : World := mkWorld (Some sample_creds) [] [].

Definition boom : Exception := mkException OtherException (lit "503 unavailable").

Definition quiet_turn (line : str) (reply : result Exception str) : Turn :=
  mkTurn (Ok line) (fun _ _ => reply) (fun _ => false).



(** *** Further definitions for the properties of the loop and of [main] *)

(** The events the loop produces: prompts, prints, sends, interrupts. *)
Definition is_loop_event (ev : Event) : bool :=
  match ev with
  | Print _ | Input _ | SendMessage _ | Sigint _ => true
  | _ => false
  end.

Definition is_send (ev : Event) : bool :=
  match ev with
  | SendMessage _ => true
  | _ => false
  end.

(** A stretch of history made of whole turns: a user message followed by
    the reply of the model, the user message trimmed, not empty and not an
    exit word. *)
Fixpoint whole_turns `{UnicodeData} (h : list (Role * str)) : Prop :=
  match h with
  | [] => True
  | (user, msg) :: (model, _) :: rest =>
      trimmed msg /\ msg <> []
      /\ in_list (lower msg) EXIT_WORDS = false
      /\ whole_turns rest
  | _ => False
  end.

(** A turn that cannot end the session: no interrupt arrives, and the
    line, if one is read, is not an exit word. *)
Definition harmless `{UnicodeData} (t : Turn) : Prop :=
  no_sigint t
  /\ forall line, stdin t = Ok line ->
                  in_list (lower (strip line)) EXIT_WORDS = false.

Definition MSG_LOADED (roster_csv : str) : str :=
  [9989%N] ++ lit " Roster loaded (" ++ format_comma (length roster_csv)
  ++ lit " chars). Initializing neural interface...".

Definition MSG_ONLINE : str :=
  [LF; HAND] ++ lit " Majel online. Awaiting input. (Type 'exit' to quit)"
  ++ [LF].

(** The reply of the API call holds no row. *)
Definition no_rows (reply : option RosterTable) : Prop :=
  reply = None \/ reply = Some [].

(** A row the writer copies as it is: it is not the row of one empty
    cell, and no cell holds a delimiter, a quote or a line end. *)
Definition plain_row (row : list str) : Prop :=
  row <> [[]]
  /\ forall f c, In f row -> In c f ->
                 c <> COMMA /\ c <> DQUOTE /\ c <> CR /\ c <> LF.

Definition expired_creds : Credentials :=
  mkCredentials false true (Some (lit "1//refresh")).

Definition EOFError : Exception :=
  mkException OtherException (lit "EOF when reading a line").

Definition eof_turn : Turn :=
  mkTurn (Raise EOFError) (fun _ _ => Ok []) (fun _ => false).

(* ================================================================== *)
(** ** The csv writer and reader *)

Module CsvProofs.
Import Csv CsvSpec.

Lemma join_scan_spec (f : str) (q : bool) :
  join_scan f q = q || needs_quotes f.
Proof.
  revert q; induction f as [|c f IH]; intro q; simpl.
  - now rewrite orb_false_r.
  - rewrite IH. now rewrite orb_assoc.
Qed.

Lemma join_copy_spec (f : str) : join_copy f = double_quotes f.
Proof.
  induction f as [|c f IH]; simpl; [reflexivity|].
  rewrite IH. unfold quotechar.
  destruct (N.eqb c DQUOTE) eqn:E; [|reflexivity].
  apply N.eqb_eq in E. now subst.
Qed.

Lemma special_false (c : Py_UCS4) :
  special c = false ->
  N.eqb c COMMA = false /\ N.eqb c DQUOTE = false
  /\ N.eqb c CR = false /\ N.eqb c LF = false.
Proof.
  unfold special, delimiter, quotechar. intro H.
  repeat (apply orb_false_elim in H; destruct H as [H ?]). auto.
Qed.

Lemma double_quotes_plain (f : str) :
  needs_quotes f = false -> double_quotes f = f.
Proof.
  induction f as [|c f IH]; simpl; [reflexivity|].
  intro H. apply orb_false_elim in H. destruct H as [Hc Hf].
  apply special_false in Hc. destruct Hc as (_ & Hq & _).
  rewrite Hq. simpl. now rewrite IH.
Qed.

Lemma join_append_spec (w : WriterObj) (f : str) :
  join_append w f false
  = mkWriter (rec w ++ (if Nat.ltb 0 (num_fields w) then [COMMA] else [])
                    ++ csv_field f)
             (S (num_fields w)).
Proof.
  unfold join_append, join_append_data, csv_field.
  rewrite join_scan_spec, join_copy_spec. simpl.
  destruct (needs_quotes f) eqn:E.
  - reflexivity.
  - rewrite (double_quotes_plain f E). simpl. now rewrite app_nil_r.
Qed.

Lemma writer_fold (row : list str) :
  forall r n,
    fold_left (fun w f => join_append w f false) row (mkWriter r (S n))
    = mkWriter (r ++ concat (map (fun g => COMMA :: g) (map csv_field row)))
               (S n + length row).
Proof.
  induction row as [|f row IH]; intros r n; simpl.
  - rewrite app_nil_r. f_equal. lia.
  - rewrite join_append_spec. simpl. rewrite IH.
    rewrite <- app_assoc. simpl. f_equal. lia.
Qed.

Lemma csv_field_nil (f : str) : csv_field f = [] -> f = [].
Proof.
  unfold csv_field. destruct (needs_quotes f); [discriminate|auto].
Qed.

(** What [writerow] writes, row by row. *)
Lemma writerow_spec (row : list str) :
  writerow row =
  match row with
  | [] => [CR; LF]
  | [ [] ] => [DQUOTE; DQUOTE; CR; LF]
  | _ => join_fields (map csv_field row) ++ [CR; LF]
  end.
Proof.
  destruct row as [|f row]; [reflexivity|].
  unfold writerow. simpl fold_left. rewrite join_append_spec. simpl.
  rewrite writer_fold. simpl.
  destruct (csv_field f ++ concat (map (fun g => COMMA :: g) (map csv_field row)))
    as [|c t] eqn:E.
  - apply app_eq_nil in E. destruct E as [E1 E2].
    apply csv_field_nil in E1. subst f.
    destruct row as [|g row]; [reflexivity|discriminate].
  - simpl. destruct f as [|c0 f]; [|reflexivity].
    destruct row as [|g row]; [discriminate|reflexivity].
Qed.

Section Reading.
Variable nl : Newline.

Lemma line_ends_plain (c : Py_UCS4) (rest : str) :
  N.eqb c LF = false -> N.eqb c CR = false -> line_ends nl c rest = false.
Proof. intros H1 H2. unfold line_ends. now rewrite H1, H2. Qed.

Lemma feed_step (self s1 : ReaderObj) (p : bool) (c : Py_UCS4) (rest : str) :
  parse_process_char self (Chr c) = Some s1 ->
  N.eqb c LF = false -> N.eqb c CR = false ->
  feed nl self p (c :: rest) = feed nl s1 true rest.
Proof.
  intros H H1 H2. simpl. rewrite H. now rewrite line_ends_plain.
Qed.

Lemma feed_in_field (f : str) :
  forall fs buf rest,
    needs_quotes f = false ->
    feed nl (mkReader IN_FIELD fs buf) true (f ++ rest)
    = feed nl (mkReader IN_FIELD fs (buf ++ f)) true rest.
Proof.
  induction f as [|c f IH]; intros fs buf rest H.
  - now rewrite app_nil_r.
  - simpl in H. apply orb_false_elim in H. destruct H as [Hc Hf].
    apply special_false in Hc. destruct Hc as (H1 & H2 & H3 & H4).
    change ((c :: f) ++ rest) with (c :: (f ++ rest)).
    rewrite (feed_step _ (mkReader IN_FIELD fs (buf ++ [c]))); auto.
    + rewrite IH by assumption. now rewrite <- app_assoc.
    + unfold parse_process_char, is_newline, is_chr, is_eol, delimiter. simpl.
      now rewrite H4, H3, H1.
Qed.

Lemma feed_quoted (f : str) :
  forall fs buf p rest,
    feed nl (mkReader IN_QUOTED_FIELD fs buf) p
         (double_quotes f ++ DQUOTE :: rest)
    = feed nl (mkReader QUOTE_IN_QUOTED_FIELD fs (buf ++ f)) true rest.
Proof.
  induction f as [|c f IH]; intros fs buf p rest.
  - rewrite app_nil_r. simpl app.
    now rewrite (feed_step _ (mkReader QUOTE_IN_QUOTED_FIELD fs buf)).
  - simpl double_quotes. destruct (N.eqb c DQUOTE) eqn:E.
    + apply N.eqb_eq in E. subst c. simpl app.
      rewrite (feed_step _ (mkReader QUOTE_IN_QUOTED_FIELD fs buf)) by reflexivity.
      rewrite (feed_step _ (mkReader IN_QUOTED_FIELD fs (buf ++ [DQUOTE])))
        by reflexivity.
      rewrite IH. now rewrite <- app_assoc.
    + simpl app. cbn [feed].
      assert (Hp : parse_process_char (mkReader IN_QUOTED_FIELD fs buf) (Chr c)
                   = Some (mkReader IN_QUOTED_FIELD fs (buf ++ [c]))).
      { unfold parse_process_char, quotechar. simpl. now rewrite E. }
      rewrite Hp.
      destruct (line_ends nl c (double_quotes f ++ DQUOTE :: rest)).
      * simpl. rewrite IH. now rewrite <- app_assoc.
      * rewrite IH. now rewrite <- app_assoc.
Qed.

Lemma feed_field (f : str) (fs : list str) (p : bool) :
  exists s' p', field_read fs f s' /\
    forall rest,
      feed nl (mkReader START_FIELD fs []) p (csv_field f ++ rest)
      = feed nl s' p' rest.
Proof.
  unfold csv_field. destruct (needs_quotes f) eqn:E.
  - exists (mkReader QUOTE_IN_QUOTED_FIELD fs f), true. split; [constructor|].
    intro rest. simpl app. rewrite <- app_assoc. simpl app.
    rewrite (feed_step _ (mkReader IN_QUOTED_FIELD fs [])) by reflexivity.
    now rewrite feed_quoted.
  - destruct f as [|c f].
    + exists (mkReader START_FIELD fs []), p. split; [now constructor|].
      reflexivity.
    + exists (mkReader IN_FIELD fs (c :: f)), true. split; [constructor|].
      intro rest. simpl in E. apply orb_false_elim in E. destruct E as [Hc Hf].
      apply special_false in Hc. destruct Hc as (H1 & H2 & H3 & H4).
      change ((c :: f) ++ rest) with (c :: (f ++ rest)).
      rewrite (feed_step _ (mkReader IN_FIELD fs [c])); auto.
      * now rewrite feed_in_field.
      * unfold parse_process_char, start_field, is_newline, is_chr, is_eol,
          delimiter, quotechar. simpl.
        now rewrite H4, H3, H2, H1.
Qed.

Lemma feed_comma (fs : list str) (f : str) (s : ReaderObj) (p : bool)
      (rest : str) :
  field_read fs f s ->
  feed nl s p (COMMA :: rest)
  = feed nl (mkReader START_FIELD (fs ++ [f]) []) true rest.
Proof.
  intro H. destruct H as [ | |E].
  - now rewrite (feed_step _ (mkReader START_FIELD (fs ++ [f]) [])).
  - now rewrite (feed_step _ (mkReader START_FIELD (fs ++ [f]) [])).
  - subst f. now rewrite (feed_step _ (mkReader START_FIELD (fs ++ [[]]) [])).
Qed.

Lemma feed_crlf (fs : list str) (f : str) (s : ReaderObj) (p : bool)
      (rest : str) :
  field_read fs f s ->
  feed nl s p (CR :: LF :: rest)
  = option_map (cons (fs ++ [f])) (feed nl parse_reset false rest).
Proof.
  intro H. destruct H; subst; destruct nl; reflexivity.
Qed.

Lemma feed_fields (row : list str) :
  row <> [] ->
  forall fs p rest,
    feed nl (mkReader START_FIELD fs []) p
         (join_fields (map csv_field row) ++ CR :: LF :: rest)
    = option_map (cons (fs ++ row)) (feed nl parse_reset false rest).
Proof.
  induction row as [|f row IH]; [congruence|]. intros _ fs p rest.
  destruct (feed_field f fs p) as (s' & p' & Hs & Hfeed).
  destruct row as [|g row].
  - simpl. rewrite app_nil_r. rewrite Hfeed. now apply feed_crlf.
  - change (join_fields (map csv_field (f :: g :: row)) ++ CR :: LF :: rest)
      with ((csv_field f ++ (COMMA :: csv_field g)
              ++ concat (map (fun h => COMMA :: h) (map csv_field row)))
             ++ CR :: LF :: rest).
    rewrite <- app_assoc. rewrite Hfeed. simpl app.
    rewrite (feed_comma fs f s' p') by assumption.
    rewrite <- app_assoc.
    change (csv_field g ++ concat (map (fun h => COMMA :: h) (map csv_field row))
              ++ CR :: LF :: rest)
      with (csv_field g ++ (concat (map (fun h => COMMA :: h) (map csv_field row))
              ++ CR :: LF :: rest)).
    rewrite app_assoc.
    change (csv_field g ++ concat (map (fun h => COMMA :: h) (map csv_field row)))
      with (join_fields (map csv_field (g :: row))).
    rewrite IH by discriminate. now rewrite <- app_assoc.
Qed.

Lemma feed_start_record (c : Py_UCS4) (t : str) (p : bool) :
  N.eqb c LF = false -> N.eqb c CR = false ->
  feed nl parse_reset p (c :: t)
  = feed nl (mkReader START_FIELD [] []) p (c :: t).
Proof.
  intros H1 H2. simpl.
  unfold parse_process_char at 1 3. simpl. now rewrite H1, H2.
Qed.

Lemma csv_field_head (f : str) (c : Py_UCS4) (t : str) :
  csv_field f = c :: t -> N.eqb c LF = false /\ N.eqb c CR = false.
Proof.
  unfold csv_field. destruct (needs_quotes f) eqn:E.
  - simpl. intro H. injection H as <- _. split; reflexivity.
  - intro H. subst f. simpl in E. apply orb_false_elim in E.
    destruct E as [Hc _]. apply special_false in Hc. tauto.
Qed.

Lemma feed_writerow (row : list str) (rest : str) :
  feed nl parse_reset false (writerow row ++ rest)
  = option_map (cons row) (feed nl parse_reset false rest).
Proof.
  rewrite writerow_spec.
  destruct row as [|f row]; [destruct nl; reflexivity|].
  assert (H : forall text,
             (exists c t, text ++ CR :: LF :: rest = c :: t
                          /\ N.eqb c LF = false /\ N.eqb c CR = false) ->
             text = join_fields (map csv_field (f :: row)) ->
             feed nl parse_reset false (text ++ CR :: LF :: rest)
             = option_map (cons (f :: row)) (feed nl parse_reset false rest)).
  { intros text (c & t & E & H1 & H2) ->. rewrite E.
    rewrite feed_start_record by assumption. rewrite <- E.
    now rewrite feed_fields by discriminate. }
  destruct f as [|c f].
  - destruct row as [|g row]; [destruct nl; reflexivity|].
    rewrite <- app_assoc. apply H; [|reflexivity].
    exists COMMA. eexists. split; [reflexivity|]. split; reflexivity.
  - assert (Hne : exists d t, csv_field (c :: f) = d :: t).
    { destruct (csv_field (c :: f)) eqn:E; [|eauto].
      apply csv_field_nil in E. discriminate. }
    destruct Hne as (d & t & E).
    assert (G : feed nl parse_reset false
                  (join_fields (map csv_field ((c :: f) :: row)) ++ CR :: LF :: rest)
                = option_map (cons ((c :: f) :: row)) (feed nl parse_reset false rest)).
    { apply H; [|reflexivity].
      exists d. eexists. split.
      - simpl join_fields. rewrite E. reflexivity.
      - now apply csv_field_head with (f := c :: f) (t := t). }
    destruct row; rewrite <- app_assoc; exact G.
Qed.

Lemma feed_writerows (rows : list (list str)) :
  feed nl parse_reset false (writerows rows) = Some rows.
Proof.
  unfold writerows. induction rows as [|row rows IH]; [reflexivity|].
  simpl. rewrite feed_writerow. now rewrite IH.
Qed.

Lemma parse_line_app (a b : str) :
  forall self,
    parse_line self (a ++ b)
    = match parse_line self a with
      | Some s => parse_line s b
      | None => None
      end.
Proof.
  induction a as [|c a IH]; intro self; simpl; [reflexivity|].
  destruct (parse_process_char self (Chr c)); [apply IH|reflexivity].
Qed.

(** The reader over the lines of the stream is the reader over its
    characters. *)
Lemma reader_rows_feed (text : str) :
  forall self cur,
    reader_rows self (readlines_from nl cur text)
    = match parse_line self cur with
      | Some s => feed nl s (match cur with [] => false | _ => true end) text
      | None => None
      end.
Proof.
  induction text as [|c rest IH]; intros self cur.
  - destruct cur as [|d cur]; [reflexivity|].
    cbn [readlines_from reader_rows].
    destruct (parse_line self (d :: cur)); reflexivity.
  - cbn [readlines_from].
    destruct (line_ends nl c rest) eqn:E.
    + cbn [reader_rows]. rewrite parse_line_app.
      destruct (parse_line self cur) as [s|]; [|reflexivity].
      cbn [parse_line feed]. rewrite E.
      destruct (parse_process_char s (Chr c)) as [s1|]; [|reflexivity].
      destruct (parse_process_char s1 EOL) as [s2|]; [|reflexivity].
      rewrite !IH. reflexivity.
    + rewrite IH. rewrite parse_line_app.
      destruct (parse_line self cur) as [s|]; [|reflexivity].
      cbn [parse_line feed]. rewrite E.
      destruct (parse_process_char s (Chr c)) as [s1|]; [|reflexivity].
      destruct cur; reflexivity.
Qed.

Lemma reader_writerows (rows : list (list str)) :
  reader nl (writerows rows) = Some rows.
Proof.
  unfold reader, readlines. rewrite reader_rows_feed. simpl.
  apply feed_writerows.
Qed.

End Reading.

End CsvProofs.

(* ================================================================== *)
(** ** The fetcher, the prompt builder and the start of [main] *)

Import CsvSpec.

Ltac run_monad :=
  unfold bind, ret, raise, lift, print_, log, write_token,
    from_client_secrets_file in *; simpl in *.

Lemma with_trace_app (w : World) (a b : list Event) :
  with_trace (with_trace w a) b = with_trace w (a ++ b).
Proof. unfold with_trace. simpl. now rewrite <- app_assoc. Qed.

Lemma log_with_trace (ev : Event) (w : World) :
  log ev w = (with_trace w [ev], Ok tt).
Proof. reflexivity. Qed.

Lemma get_sheets_service_frame (env : Env) (w w1 : World)
      (r : result BaseException Credentials) :
  get_sheets_service env w = (w1, r) ->
  trace w1 = trace w /\ history w1 = history w.
Proof.
  unfold get_sheets_service. run_monad.
  destruct (token_json w) as [c|];
    [destruct (valid c);
     [|destruct (expired c && truthy (refresh_token c));
       [destruct (refresh env c)
       |destruct (client_secrets_file env);
        [destruct (run_local_server env)|]]]
    |destruct (client_secrets_file env);
     [destruct (run_local_server env)|]];
    simpl; intro E; inversion E; subst; simpl; auto.
Qed.


Lemma fetch_after_service (env : Env) (w w1 : World) (service : Credentials) :
  get_sheets_service env w = (w1, Ok service) ->
  fetch_roster_context env w =
  match execute env (SPREADSHEET_ID env) (RANGE_NAME env) with
  | Raise e => (with_trace w1 [SHEETS_GET env], Raise (Exc e))
  | Ok None | Ok (Some []) => (with_trace w1 [SHEETS_GET env], Ok NO_DATA)
  | Ok (Some values) =>
      (with_trace w1 [SHEETS_GET env; CsvWriterows values],
       Ok (Csv.writerows values))
  end.
Proof.
  intro H. unfold fetch_roster_context, bind at 1. rewrite H.
  unfold bind at 1. rewrite log_with_trace.
  unfold bind at 1, lift.
  destruct (execute env (SPREADSHEET_ID env) (RANGE_NAME env)) as [[[|row rows]|]|e];
    try reflexivity.
  unfold ret at 1. unfold bind. rewrite log_with_trace.
  now rewrite with_trace_app.
Qed.

Lemma fetch_service_failure (env : Env) (w w1 : World) (e : BaseException) :
  get_sheets_service env w = (w1, Raise e) ->
  fetch_roster_context env w = (w1, Raise e).
Proof.
  intro H. unfold fetch_roster_context, bind at 1. now rewrite H.
Qed.

Lemma writerows_layout (values : RosterTable) :
  Csv.writerows values = concat (map csv_row values).
Proof.
  unfold Csv.writerows. f_equal. apply map_ext. intro row.
  rewrite CsvProofs.writerow_spec. unfold csv_row.
  destruct row as [|[|c f] [|g row]]; reflexivity.
Qed.




(** C4.  When the API call returns no rows (no 'values' entry, or an
    empty one), the fetcher returns the placeholder text, raises nothing,
    and the API call is all it has done: the csv writer is not reached. *)
Theorem empty_sheet_placeholder (env : Env) (w w1 : World)
        (service : Credentials) :
  get_sheets_service env w = (w1, Ok service) ->
  execute env (SPREADSHEET_ID env) (RANGE_NAME env) = Ok None
  \/ execute env (SPREADSHEET_ID env) (RANGE_NAME env) = Ok (Some []) ->
  exists w',
    fetch_roster_context env w = (w', Ok NO_DATA)
    /\ NO_DATA = lit "No data found in spreadsheet."
    /\ trace w' = trace w ++ [SHEETS_GET env]
    /\ forall values, ~ In (CsvWriterows values) [SHEETS_GET env].
Proof.
  intros Hs He. rewrite (fetch_after_service env w w1 service Hs).
  apply get_sheets_service_frame in Hs. destruct Hs as [Ht _].
  exists (with_trace w1 [SHEETS_GET env]).
  split; [destruct He as [-> | ->]; reflexivity|].
  split; [reflexivity|]. split; [simpl; now rewrite Ht|].
  intros values [H|[]]. discriminate.
Qed.

Lemma empty_sheet_placeholder_witness :
  exists w',
    fetch_roster_context (sample_env (Ok (Some []))) cached_world
    = (w', Ok NO_DATA)
    /\ NO_DATA = lit "No data found in spreadsheet."
    /\ trace w' = trace cached_world ++ [SHEETS_GET (sample_env (Ok (Some [])))]
    /\ forall values,
         ~ In (CsvWriterows values) [SHEETS_GET (sample_env (Ok (Some [])))].
Proof.
  apply (empty_sheet_placeholder (sample_env (Ok (Some []))) cached_world
                                 cached_world sample_creds).
  - reflexivity.
  - right. reflexivity.
Defined.

(** C5.  The prompt builder is a total function of the CSV text alone:
    for every text it yields the fixed template around that text, and
    equal texts yield equal prompts. *)
Theorem build_system_prompt_deterministic (roster_csv : str) :
  exists prompt,
    build_system_prompt roster_csv = prompt
    /\ prompt = PROMPT_HEAD ++ roster_csv ++ PROMPT_TAIL
    /\ forall again, again = roster_csv -> build_system_prompt again = prompt.
Proof.
  exists (build_system_prompt roster_csv).
  split; [reflexivity|]. split; [reflexivity|].
  intros again ->. reflexivity.
Qed.

Lemma build_system_prompt_deterministic_witness :
  exists prompt,
    build_system_prompt (lit "Name,Rank") = prompt
    /\ prompt = PROMPT_HEAD ++ lit "Name,Rank" ++ PROMPT_TAIL
    /\ forall again, again = lit "Name,Rank" ->
                     build_system_prompt again = prompt.
Proof.
  exact (build_system_prompt_deterministic (lit "Name,Rank")).
Defined.

(** C7.  An error of the credential step (refresh, consent flow) or of
    the API call leaves the fetcher as the very exception that was
    raised, so with its message; nothing is caught inside the fetcher. *)
Theorem fetch_error_propagates (env : Env) (w : World) (e : Exception) :
  (exists w1, get_sheets_service env w = (w1, Raise (Exc e)))
  \/ (exists w1 service,
        get_sheets_service env w = (w1, Ok service)
        /\ execute env (SPREADSHEET_ID env) (RANGE_NAME env) = Raise e) ->
  exists w' raised,
    fetch_roster_context env w = (w', Raise (Exc raised))
    /\ raised = e
    /\ exc_str raised = exc_str e.
Proof.
  intros [(w1 & H) | (w1 & service & Hs & He)].
  - exists w1, e. rewrite (fetch_service_failure env w w1 _ H). auto.
  - exists (with_trace w1 [SHEETS_GET env]), e.
    rewrite (fetch_after_service env w w1 service Hs), He. auto.
Qed.

Lemma fetch_error_propagates_witness :
  exists w' raised,
    fetch_roster_context (sample_env (Raise boom)) cached_world
    = (w', Raise (Exc raised))
    /\ raised = boom
    /\ exc_str raised = exc_str boom.
Proof.
  apply (fetch_error_propagates (sample_env (Raise boom)) cached_world boom).
  right. exists cached_world, sample_creds. split; reflexivity.
Defined.

(* ================================================================== *)
(** ** [strip] and [lower] *)

Lemma lstrip_spaces (ws s : str) :
  forallb isspace ws = true -> lstrip (ws ++ s) = lstrip s.
Proof.
  induction ws as [|c ws IH]; simpl; [reflexivity|].
  intro H. apply andb_true_iff in H. destruct H as [Hc Hws].
  rewrite Hc. now apply IH.
Qed.

Lemma lstrip_head (c : Py_UCS4) (s : str) :
  isspace c = false -> lstrip (c :: s) = c :: s.
Proof. intro H. simpl. now rewrite H. Qed.

(** What [lstrip] leaves is empty or starts with a character that is
    not whitespace, and it is the end of the text. *)
Lemma lstrip_spec (s : str) :
  exists ws, s = ws ++ lstrip s /\ forallb isspace ws = true
             /\ match lstrip s with
                | [] => True
                | c :: _ => isspace c = false
                end.
Proof.
  induction s as [|c s (ws & E & Hws & Hh)].
  - exists []. simpl. auto.
  - simpl. destruct (isspace c) eqn:Hc.
    + exists (c :: ws). simpl. rewrite Hc, Hws. split; [now f_equal|auto].
    + exists []. simpl. auto.
Qed.

Lemma last_app_single (s : str) (c d : Py_UCS4) : last (s ++ [c]) d = c.
Proof. now rewrite last_last. Qed.

Lemma trimmed_rev_head (c : Py_UCS4) (s : str) :
  trimmed (c :: s) -> exists d t, rev (c :: s) = d :: t /\ isspace d = false.
Proof.
  intros [_ Hl].
  destruct (rev (c :: s)) as [|d t] eqn:E.
  - apply (f_equal (@length _)) in E. rewrite length_rev in E. discriminate.
  - exists d, t. split; [reflexivity|].
    apply (f_equal (@rev _)) in E. rewrite rev_involutive in E. simpl in E.
    rewrite E in Hl. now rewrite last_app_single in Hl.
Qed.

Lemma strip_trimmed_id (s : str) : trimmed s -> strip s = s.
Proof.
  destruct s as [|c s]; [reflexivity|]. intro H.
  unfold strip, rstrip. rewrite lstrip_head by apply H.
  destruct (trimmed_rev_head c s H) as (d & t & E & Hd).
  rewrite E, lstrip_head by assumption. rewrite <- E. apply rev_involutive.
Qed.

Lemma strip_is_trimmed (s : str) : trimmed (strip s).
Proof.
  unfold strip, rstrip.
  destruct (lstrip_spec s) as (ws & _ & _ & Hh).
  destruct (lstrip s) as [|c t] eqn:E; [exact I|].
  destruct (lstrip_spec (rev (c :: t))) as (ws' & E' & Hws' & Hh').
  destruct (lstrip (rev (c :: t))) as [|d u] eqn:E2.
  - rewrite app_nil_r in E'. simpl in E'.
    assert (Hin : In c ws') by (rewrite <- E'; apply in_or_app; right; now left).
    rewrite forallb_forall in Hws'. rewrite (Hws' c Hin) in Hh. discriminate.
  - (* rev (c :: t) = ws' ++ d :: u, so c :: t = rev u ++ d :: rev ws' *)
    apply (f_equal (@rev _)) in E'. rewrite rev_involutive in E'.
    rewrite rev_app_distr in E'.
    change (rev (d :: u)) with (rev u ++ [d]) in *.
    destruct (rev u ++ [d]) as [|c0 r] eqn:E3.
    { destruct (rev u); discriminate. }
    simpl in E'. injection E' as <- _.
    assert (L : last (c :: r) c = d).
    { rewrite <- E3. apply last_app_single. }
    unfold trimmed. rewrite L. split; [exact Hh|exact Hh'].
Qed.

Lemma strip_idempotent (s : str) : strip (strip s) = strip s.
Proof. apply strip_trimmed_id, strip_is_trimmed. Qed.

Lemma strip_blank (s : str) : forallb isspace s = true -> strip s = [].
Proof.
  intro H. unfold strip.
  rewrite <- (app_nil_r s). now rewrite lstrip_spaces.
Qed.

Lemma strip_padded (ws1 x ws2 : str) :
  forallb isspace ws1 = true -> forallb isspace ws2 = true ->
  trimmed x -> strip (ws1 ++ x ++ ws2) = x.
Proof.
  intros H1 H2 Hx. destruct x as [|c x].
  - simpl. apply strip_blank. rewrite forallb_app. now rewrite H1, H2.
  - unfold strip, rstrip. rewrite lstrip_spaces by assumption.
    change ((c :: x) ++ ws2) with (c :: (x ++ ws2)).
    rewrite lstrip_head by apply Hx.
    change (c :: x ++ ws2) with ((c :: x) ++ ws2).
    rewrite rev_app_distr. rewrite lstrip_spaces.
    + destruct (trimmed_rev_head c x Hx) as (d & t & E & Hd).
      rewrite E, lstrip_head by assumption. rewrite <- E. apply rev_involutive.
    + rewrite forallb_forall in *. intros y Hy. apply H2. now apply in_rev.
Qed.

Lemma isspace_tolower (c : Py_UCS4) : isspace (ascii_tolower c) = isspace c.
Proof.
  unfold ascii_tolower.
  destruct ((65 <=? c) && (c <=? 90))%N eqn:E; [|reflexivity].
  apply andb_true_iff in E. destruct E as [E1 E2].
  apply N.leb_le in E1. apply N.leb_le in E2.
  assert (F : forall x, (65 <= x <= 122)%N -> isspace x = false).
  { intros x Hx. unfold isspace.
    repeat match goal with
           | |- context [(?a <=? ?b)%N] => 
               let H := fresh in destruct (N.leb_spec a b) as [H|H]
           | |- context [(?a =? ?b)%N] =>
               let H := fresh in destruct (N.eqb_spec a b) as [H|H]
           end; try reflexivity; lia. }
  rewrite (F c) by lia. apply F. lia.
Qed.

Lemma last_map_tolower (s : str) (d : Py_UCS4) :
  last (map ascii_tolower s) (ascii_tolower d) = ascii_tolower (last s d).
Proof.
  induction s as [|c s IH]; [reflexivity|].
  destruct s as [|c' s]; [reflexivity|]. exact IH.
Qed.

Lemma trimmed_tolower (x : str) : trimmed (map ascii_tolower x) -> trimmed x.
Proof.
  destruct x as [|c x]; [auto|]. intros [H1 H2].
  change (map ascii_tolower (c :: x)) with (ascii_tolower c :: map ascii_tolower x) in H2.
  split.
  - now rewrite <- isspace_tolower.
  - rewrite <- isspace_tolower.
    change (ascii_tolower c :: map ascii_tolower x)
      with (map ascii_tolower (c :: x)) in H2.
    now rewrite last_map_tolower in H2.
Qed.

Lemma tolower_ascii (c : Py_UCS4) :
  (ascii_tolower c <? 128)%N = true -> (c <? 128)%N = true.
Proof.
  unfold ascii_tolower.
  destruct ((65 <=? c) && (c <=? 90))%N eqn:E; [|auto].
  intros _. apply andb_true_iff in E. destruct E as [_ E].
  apply N.leb_le in E. apply N.ltb_lt. lia.
Qed.

Section Lower.
Context `{U : UnicodeData}.

Lemma lower_from_ascii (whole : str) (s : str) :
  forall i,
    forallb (fun c => (c <? 128)%N) (map ascii_tolower s) = true ->
    lower_from whole i s = map ascii_tolower s.
Proof.
  induction s as [|c s IH]; intros i H; simpl; [reflexivity|].
  simpl in H. apply andb_true_iff in H. destruct H as [Hc Hs].
  rewrite (tolower_ascii c Hc). simpl. f_equal. now apply IH.
Qed.

Lemma exit_word_facts (word : str) :
  In word EXIT_WORDS ->
  map ascii_tolower word = word
  /\ forallb (fun c => (c <? 128)%N) word = true
  /\ trimmed word /\ word <> [].
Proof.
  intros [<-|[<-|[<-|[]]]]; repeat split; discriminate.
Qed.

(** A text equal to an exit word up to case is lowered to that word. *)
Lemma lower_exit_word (x word : str) :
  In word EXIT_WORDS -> caseless_eq x word ->
  lower x = word /\ trimmed x /\ x <> [].
Proof.
  intros Hw Hx. destruct (exit_word_facts word Hw) as (E & Ha & Ht & Hne).
  unfold caseless_eq in Hx. rewrite E in Hx.
  split; [|split].
  - unfold lower. rewrite lower_from_ascii; [assumption|]. now rewrite Hx.
  - apply trimmed_tolower. now rewrite Hx.
  - intros ->. simpl in Hx. congruence.
Qed.

Lemma in_exit_words (word : str) :
  In word EXIT_WORDS -> in_list word EXIT_WORDS = true.
Proof.
  intros [<-|[<-|[<-|[]]]]; reflexivity.
Qed.

End Lower.

(* ================================================================== *)
(** ** The chat loop *)

Lemma skipn_length_app {A} (a b : list A) : skipn (length a) (a ++ b) = b.
Proof. induction a as [|x a IH]; [reflexivity|exact IH]. Qed.

Ltac unfold_loop :=
  unfold loop_iteration, try_body, input, send_message, at_,
    bind, lift, print_, log; unfold ret, raise.

Section Loop.
Context `{U : UnicodeData}.

(** One iteration when no interrupt arrives and [input] returns. *)
Lemma iteration_quiet (t : Turn) (w : World) (line : str) :
  no_sigint t -> stdin t = Ok line ->
  loop_iteration t w =
  match strip line with
  | [] => (with_trace w [Input PROMPT], Ok Next)
  | _ =>
      if in_list (lower (strip line)) EXIT_WORDS then
        (with_trace w [Input PROMPT; Print FAREWELL], Ok Break)
      else
        match remote t (history w) (strip line) with
        | Ok text =>
            (mkWorld (token_json w)
                     (history w ++ [(user, strip line); (model, text)])
                     (trace w ++ [Input PROMPT; SendMessage (strip line);
                                  Print ([LF] ++ lit "Majel > " ++ text ++ [LF])]),
             Ok Next)
        | Raise e =>
            (with_trace w [Input PROMPT; SendMessage (strip line);
                           Print (ERROR_REPORT e)], Ok Next)
        end
  end.
Proof.
  intros Hq Hin. unfold_loop.
  rewrite (Hq L115), (Hq L116), (Hq L118), (Hq L119), (Hq L122), (Hq L123),
    (Hq L129), Hin.
  cbn [trace history token_json].
  destruct (strip line) as [|c u] eqn:Es; [reflexivity|].
  destruct (in_list (lower (c :: u)) EXIT_WORDS).
  - unfold with_trace. cbn [trace history token_json].
    now rewrite <- app_assoc.
  - cbn [trace history token_json].
    destruct (remote t (history w) (c :: u)); unfold with_trace;
      cbn [trace history token_json]; now rewrite <- !app_assoc.
Qed.

Lemma chat_loop_app (pre more : list Turn) :
  forall w0 w,
    chat_loop pre w0 = (w, AWAITING_INPUT) ->
    chat_loop (pre ++ more) w0 = chat_loop more w.
Proof.
  induction pre as [|t pre IH]; intros w0 w H; simpl in *.
  - now injection H as ->.
  - destruct (loop_iteration t w0) as [w' [[|]|e]]; try discriminate.
    now apply IH.
Qed.

Lemma main_goes_on (env : Env) (pre more : list Turn) (wi w : World) :
  main env pre wi = (w, Running) ->
  main env (pre ++ more) wi
  = (let (w', s) := chat_loop more w in (w', exit_of s)).
Proof.
  unfold main.
  destruct ((print_ MSG_INIT ;;;
             roster_csv <- fetch_roster_context env ;;
             print_ ([9989%N] ++ lit " Roster loaded ("
                     ++ format_comma (length roster_csv)
                     ++ lit " chars). Initializing neural interface...") ;;;
             ret roster_csv) wi) as [w1 [csv|[|e]]] eqn:E.
  - change (print_ ([9889%N] ++ lit " Majel initializing... Connecting to Starfleet Database (Google Sheets)...")) with (print_ MSG_INIT).
    rewrite E.
    destruct (go_online env csv w1) as [w2 [[]|e]]; [|discriminate].
    destruct (chat_loop pre w2) as [w3 s] eqn:Ep.
    intro H. injection H as -> Hs.
    destruct s; try discriminate.
    now rewrite (chat_loop_app pre more w2 w Ep).
  - change (print_ ([9889%N] ++ lit " Majel initializing... Connecting to Starfleet Database (Google Sheets)...")) with (print_ MSG_INIT).
    rewrite E. discriminate.
  - change (print_ ([9889%N] ++ lit " Majel initializing... Connecting to Starfleet Database (Google Sheets)...")) with (print_ MSG_INIT).
    rewrite E. destruct (exc_class e); discriminate.
Qed.

End Loop.

Ltac explore t :=
  repeat (match goal with
          | |- context [sigint t ?s] => destruct (sigint t s) eqn:?
          | |- context [stdin t] => destruct (stdin t) eqn:?
          | |- context [match strip ?l with _ => _ end] =>
              destruct (strip l) eqn:?
          | |- context [if in_list ?a ?b then _ else _] =>
              destruct (in_list a b) eqn:?
          | |- context [remote t ?h ?m] => destruct (remote t h m) eqn:?
          end; cbn [trace history token_json fst snd]).

Ltac in_cases :=
  repeat match goal with
         | H : In _ (_ :: _) |- _ => destruct H
         | H : In _ [] |- _ => destruct H
         | H : In _ (_ ++ _) |- _ => apply in_app_or in H
         | H : _ \/ _ |- _ => destruct H
         | H : False |- _ => destruct H
         | H : Input _ = _ |- _ => discriminate H
         | H : Print _ = _ |- _ => discriminate H
         | H : SendMessage _ = Sigint _ |- _ => discriminate H
         | H : Sigint _ = SendMessage _ |- _ => discriminate H
         | H : Sigint _ = Sigint _ |- _ => injection H as <-
         | H : SendMessage _ = SendMessage _ |- _ => injection H as <-
         | H : @Raise _ _ _ = Raise _ |- _ => discriminate H
         | H : @Ok _ _ _ = Raise _ |- _ => discriminate H
         end.

Section Paths.
Context `{U : UnicodeData}.

(** What the body of the [try] can do: the events it adds, and how they
    relate to its outcome. *)
Lemma try_body_spec (t : Turn) (w : World) :
  exists evs h r,
    try_body t w = (mkWorld (token_json w) h (trace w ++ evs), r)
    /\ (forall s, In (Sigint s) evs ->
                  r = Raise KeyboardInterrupt /\ s <> L126 /\ s <> L129)
    /\ (r = Raise KeyboardInterrupt -> exists s, In (Sigint s) evs)
    /\ (forall msg, In (SendMessage msg) evs ->
                    exists line, stdin t = Ok line /\ msg = strip line
                                 /\ msg <> [])
    /\ (forall e, r = Raise (Exc e) -> forall s, ~ In (Sigint s) evs).
Proof.
  unfold_loop. cbn [trace history token_json].
  explore t; rewrite <- ?app_assoc;
    (do 3 eexists; split; [reflexivity|];
     split; [intros sg Hsg; in_cases; repeat split; discriminate|];
     split; [intro Hr; in_cases; try (eexists; simpl; eauto; fail)|];
     split; [intros sent Hsent; in_cases;
             try (eexists; split; [reflexivity|]; split; [congruence|];
                  congruence)|];
     intros ex Hex sg Hsg; in_cases).
Qed.

End Paths.

Section ChatLoop.
Context `{U : UnicodeData}.

Lemma exit_turn (t : Turn) (w : World) (line word : str) :
  no_sigint t -> stdin t = Ok line ->
  In word EXIT_WORDS -> caseless_eq (strip line) word ->
  loop_iteration t w = (with_trace w [Input PROMPT; Print FAREWELL], Ok Break).
Proof.
  intros Hq Hin Hw Hc. rewrite (iteration_quiet t w line Hq Hin).
  destruct (lower_exit_word (strip line) word Hw Hc) as (El & _ & Hne).
  rewrite El, (in_exit_words word Hw).
  destruct (strip line); [congruence|reflexivity].
Qed.

Lemma blank_turn (t : Turn) (w : World) (line : str) :
  no_sigint t -> stdin t = Ok line -> forallb isspace line = true ->
  loop_iteration t w = (with_trace w [Input PROMPT], Ok Next).
Proof.
  intros Hq Hin Hb. rewrite (iteration_quiet t w line Hq Hin).
  now rewrite (strip_blank line Hb).
Qed.

(** C2.  In AWAITING_INPUT, a line that after trimming equals exit, quit
    or q up to case takes the loop to OFFLINE: the farewell is printed,
    [main] returns (exit code 0), and the prompt and the farewell are all
    that happens: the remote endpoint is not called, whatever turns were
    still to come. *)
Theorem exit_word_goes_offline (pre rest : list Turn) (t : Turn)
        (w0 w : World) (line word : str) :
  chat_loop pre w0 = (w, AWAITING_INPUT) ->
  stdin t = Ok line -> no_sigint t ->
  In word EXIT_WORDS -> caseless_eq (strip line) word ->
  let w' := with_trace w [Input PROMPT; Print FAREWELL] in
  chat_loop (pre ++ t :: rest) w0 = (w', OFFLINE)
  /\ history w' = history w
  /\ (forall msg, ~ In (SendMessage msg) [Input PROMPT; Print FAREWELL])
  /\ (forall env wi,
        main env pre wi = (w, Running) ->
        main env (pre ++ t :: rest) wi = (w', ExitSuccess)).
Proof.
  intros Hpre Hin Hq Hw Hc w'.
  assert (Hit := exit_turn t w line word Hq Hin Hw Hc).
  split; [|split; [|split]].
  - rewrite (chat_loop_app pre (t :: rest) w0 w Hpre). simpl. now rewrite Hit.
  - reflexivity.
  - intros msg H. in_cases.
  - intros env wi Hm. rewrite (main_goes_on env pre (t :: rest) wi w Hm).
    simpl. now rewrite Hit.
Qed.


(** C9.  In AWAITING_INPUT, a blank line (empty, or whitespace only)
    re-loops: the loop is in AWAITING_INPUT again and goes on with the
    turns to come, the prompt is the only event (no remote call), and the
    history of the conversation is unchanged. *)
Theorem blank_line_reloops (pre rest : list Turn) (t : Turn)
        (w0 w : World) (line : str) :
  chat_loop pre w0 = (w, AWAITING_INPUT) ->
  stdin t = Ok line -> no_sigint t ->
  forallb isspace line = true ->
  let w' := with_trace w [Input PROMPT] in
  chat_loop (pre ++ [t]) w0 = (w', AWAITING_INPUT)
  /\ chat_loop (pre ++ t :: rest) w0 = chat_loop rest w'
  /\ history w' = history w
  /\ (forall msg, ~ In (SendMessage msg) [Input PROMPT])
  /\ (forall env wi,
        main env pre wi = (w, Running) ->
        main env (pre ++ [t]) wi = (w', Running)).
Proof.
  intros Hpre Hin Hq Hb w'.
  assert (Hit := blank_turn t w line Hq Hin Hb).
  split; [|split; [|split; [|split]]].
  - rewrite (chat_loop_app pre [t] w0 w Hpre). simpl. now rewrite Hit.
  - rewrite (chat_loop_app pre (t :: rest) w0 w Hpre). simpl. now rewrite Hit.
  - reflexivity.
  - intros msg H. in_cases.
  - intros env wi Hm. rewrite (main_goes_on env pre [t] wi w Hm).
    simpl. now rewrite Hit.
Qed.

End ChatLoop.

Section Interrupts.
Context `{U : UnicodeData}.

(** One iteration, for every turn: the events of the [try] body followed
    by what the handler that runs adds. *)
Lemma loop_iteration_spec (t : Turn) (w : World) :
  exists evs h r extra r',
    try_body t w = (mkWorld (token_json w) h (trace w ++ evs), r)
    /\ loop_iteration t w
       = (mkWorld (token_json w) h (trace w ++ evs ++ extra), r')
    /\ emitted t w = evs ++ extra
    /\ match r with
       | Ok f => extra = [] /\ r' = Ok f
       | Raise KeyboardInterrupt =>
           (sigint t L126 = true /\ extra = [Sigint L126]
            /\ r' = Raise KeyboardInterrupt)
           \/ (sigint t L126 = false
               /\ extra = [Print ([LF; LF] ++ FAREWELL)] /\ r' = Ok Break)
       | Raise (Exc e) =>
           (sigint t L129 = true /\ extra = [Sigint L129]
            /\ r' = Raise KeyboardInterrupt)
           \/ (sigint t L129 = false
               /\ extra = [Print (ERROR_REPORT e)] /\ r' = Ok Next)
       end.
Proof.
  destruct (try_body_spec t w) as (evs & h & r & E & _).
  assert (G : forall extra r',
             loop_iteration t w
             = (mkWorld (token_json w) h (trace w ++ evs ++ extra), r') ->
             emitted t w = evs ++ extra).
  { intros extra r' H. unfold emitted. rewrite H. simpl.
    apply skipn_length_app. }
  assert (F : forall extra r',
             loop_iteration t w
             = (mkWorld (token_json w) h ((trace w ++ evs) ++ extra), r') ->
             loop_iteration t w
             = (mkWorld (token_json w) h (trace w ++ evs ++ extra), r')).
  { intros extra r' H. now rewrite app_assoc. }
  destruct r as [f|[|e]].
  - exists evs, h, (Ok f), [], (Ok f).
    assert (L : loop_iteration t w
                = (mkWorld (token_json w) h (trace w ++ evs ++ []), Ok f)).
    { apply F. unfold loop_iteration. rewrite E. now rewrite app_nil_r. }
    split; [exact E|]. split; [exact L|]. split; [exact (G _ _ L)|]. auto.
  - destruct (sigint t L126) eqn:S.
    + exists evs, h, (Raise KeyboardInterrupt), [Sigint L126],
        (Raise KeyboardInterrupt).
      assert (L : loop_iteration t w
                  = (mkWorld (token_json w) h (trace w ++ evs ++ [Sigint L126]),
                     Raise KeyboardInterrupt)).
      { apply F. unfold loop_iteration. rewrite E.
        unfold at_. rewrite S. reflexivity. }
      split; [exact E|]. split; [exact L|]. split; [exact (G _ _ L)|]. auto.
    + exists evs, h, (Raise KeyboardInterrupt),
        [Print ([LF; LF] ++ FAREWELL)], (Ok Break).
      assert (L : loop_iteration t w
                  = (mkWorld (token_json w) h
                             (trace w ++ evs ++ [Print ([LF; LF] ++ FAREWELL)]),
                     Ok Break)).
      { apply F. unfold loop_iteration. rewrite E.
        unfold at_. rewrite S. reflexivity. }
      split; [exact E|]. split; [exact L|]. split; [exact (G _ _ L)|]. auto.
  - destruct (sigint t L129) eqn:S.
    + exists evs, h, (Raise (Exc e)), [Sigint L129],
        (Raise KeyboardInterrupt).
      assert (L : loop_iteration t w
                  = (mkWorld (token_json w) h (trace w ++ evs ++ [Sigint L129]),
                     Raise KeyboardInterrupt)).
      { apply F. unfold loop_iteration. rewrite E.
        unfold at_. rewrite S. reflexivity. }
      split; [exact E|]. split; [exact L|]. split; [exact (G _ _ L)|]. auto.
    + exists evs, h, (Raise (Exc e)), [Print (ERROR_REPORT e)], (Ok Next).
      assert (L : loop_iteration t w
                  = (mkWorld (token_json w) h
                             (trace w ++ evs ++ [Print (ERROR_REPORT e)]),
                     Ok Next)).
      { apply F. unfold loop_iteration. rewrite E.
        unfold at_. rewrite S. reflexivity. }
      split; [exact E|]. split; [exact L|]. split; [exact (G _ _ L)|]. auto.
Qed.


(** C10.  The line is stripped before anything is done with it: an
    iteration is the same as the one on the stripped line; a line of
    whitespace only is treated as the empty line (re-loop, nothing but the
    prompt); an exit word between whitespace ends the loop; and a message
    sent to the remote endpoint is the stripped line, not empty, with no
    whitespace at either end. *)
Theorem input_is_stripped (t : Turn) (w : World) :
  (forall line,
      stdin t = Ok line ->
      loop_iteration t w = loop_iteration (with_stdin t (strip line)) w)
  /\ (forall line,
        stdin t = Ok line -> forallb isspace line = true ->
        loop_iteration t w = loop_iteration (with_stdin t []) w
        /\ (no_sigint t ->
            loop_iteration t w = (with_trace w [Input PROMPT], Ok Next)))
  /\ (forall ws1 x ws2 word,
        stdin t = Ok (ws1 ++ x ++ ws2) -> no_sigint t ->
        forallb isspace ws1 = true -> forallb isspace ws2 = true ->
        In word EXIT_WORDS -> caseless_eq x word ->
        loop_iteration t w
        = (with_trace w [Input PROMPT; Print FAREWELL], Ok Break))
  /\ (forall msg,
        In (SendMessage msg) (emitted t w) ->
        trimmed msg /\ msg <> []
        /\ exists line, stdin t = Ok line /\ msg = strip line).
Proof.
  assert (P1 : forall line,
             stdin t = Ok line ->
             loop_iteration t w = loop_iteration (with_stdin t (strip line)) w).
  { intros line Hin. unfold_loop. unfold with_stdin.
    cbn [stdin remote sigint]. rewrite Hin.
    destruct (sigint t L115); [reflexivity|].
    cbn [trace history token_json]. now rewrite strip_idempotent. }
  split; [exact P1|]. split; [|split].
  - intros line Hin Hb. split.
    + rewrite (P1 line Hin). now rewrite (strip_blank line Hb).
    + intro Hq. now apply blank_turn with (line := line).
  - intros ws1 x ws2 word Hin Hq H1 H2 Hw Hc.
    apply exit_turn with (line := ws1 ++ x ++ ws2) (word := word); auto.
    destruct (lower_exit_word x word Hw Hc) as (_ & Ht & _).
    now rewrite strip_padded.
  - intros msg Hm.
    destruct (loop_iteration_spec t w)
      as (evs & h & r & extra & r' & Et & _ & Em & Hr).
    destruct (try_body_spec t w) as (evs0 & h0 & r0 & Et0 & _ & _ & Hs & _).
    rewrite Et in Et0. injection Et0 as <- Ev <-.
    apply app_inv_head in Ev. subst evs0.
    rewrite Em in Hm. apply in_app_or in Hm. destruct Hm as [Hm|Hm].
    + destruct (Hs msg Hm) as (line & Hin & -> & Hne).
      split; [apply strip_is_trimmed|]. split; [exact Hne|].
      now exists line.
    + exfalso. destruct r as [f|[|e]].
      * destruct Hr as [-> _]. destruct Hm.
      * destruct Hr as [(_ & -> & _)|(_ & -> & _)]; in_cases.
      * destruct Hr as [(_ & -> & _)|(_ & -> & _)]; in_cases.
Qed.

End Interrupts.

(* ================================================================== *)
(** ** [main] before the loop *)

Section TopLevel.
Context `{U : UnicodeData}.



End TopLevel.

(* ================================================================== *)
(** ** The theorems at concrete inputs *)

Example csv_writerows_sample :
  Csv.writerows [[lit "a"; lit "b,c"]; []; [[]]; [lit "x"; []]]
  = lit "a," ++ [DQUOTE] ++ lit "b,c"
    ++ [DQUOTE; CR; LF; CR; LF; DQUOTE; DQUOTE; CR; LF]
    ++ lit "x," ++ [CR; LF].
Proof. vm_compute. reflexivity. Qed.

Example csv_reader_sample :
  Csv.reader Csv.Universal
             (lit "x" ++ [CR] ++ lit "y," ++ [LF; DQUOTE] ++ lit "p"
              ++ [LF; DQUOTE; DQUOTE] ++ lit "q" ++ [DQUOTE; LF])
  = Some [[lit "x"]; [lit "y"; []]; [lit "p" ++ [LF; DQUOTE] ++ lit "q"]].
Proof. vm_compute. reflexivity. Qed.

Example strip_sample :
  strip ([32; 9; 160]%N ++ lit "a b" ++ [10; 8195]%N) = lit "a b".
Proof. vm_compute. reflexivity. Qed.

Example format_comma_sample :
  format_comma 4096 = lit "4,096" /\ format_comma 999 = lit "999".
Proof. vm_compute. split; reflexivity. Qed.

Lemma exit_word_goes_offline_witness :
  @chat_loop no_case ([] ++ quiet_turn (lit "  QUIT ") (Ok []) :: [])
             fresh_world
  = (with_trace fresh_world [Input PROMPT; Print FAREWELL], OFFLINE).
Proof.
  apply (@exit_word_goes_offline no_case [] []
           (quiet_turn (lit "  QUIT ") (Ok [])) fresh_world fresh_world
           (lit "  QUIT ") (lit "quit")).
  - reflexivity.
  - reflexivity.
  - intro site. reflexivity.
  - simpl. auto.
  - vm_compute. reflexivity.
Defined.


Lemma blank_line_reloops_witness :
  @chat_loop no_case ([] ++ [quiet_turn [] (Ok (lit "unused"))]) fresh_world
  = (with_trace fresh_world [Input PROMPT], AWAITING_INPUT).
Proof.
  apply (@blank_line_reloops no_case [] []
           (quiet_turn [] (Ok (lit "unused"))) fresh_world fresh_world []).
  - reflexivity.
  - reflexivity.
  - intro site. reflexivity.
  - reflexivity.
Defined.

Lemma input_is_stripped_witness :
  @loop_iteration no_case (quiet_turn (lit "  EXIT  ") (Ok [])) fresh_world
  = (with_trace fresh_world [Input PROMPT; Print FAREWELL], Ok Break).
Proof.
  apply (proj1 (proj2 (proj2
           (@input_is_stripped no_case (quiet_turn (lit "  EXIT  ") (Ok []))
                               fresh_world)))
           (lit "  ") (lit "EXIT") (lit "  ") (lit "exit")).
  - reflexivity.
  - intro site. reflexivity.
  - reflexivity.
  - reflexivity.
  - simpl. auto.
  - vm_compute. reflexivity.
Defined.




(** A whole session: the roster is fetched, an empty line, a question
    that is answered, a question whose send fails, then Exit. *)
Example main_session_sample :
  let session :=
    [quiet_turn [] (Ok []);
     quiet_turn (lit " who is Kirk? ") (Ok (lit "Captain."));
     quiet_turn (lit "and Spock?") (Raise boom);
     quiet_turn (lit "Exit") (Ok [])] in
  let run := @main no_case (sample_env (Ok (Some sample_table))) session
                   cached_world in
  snd run = ExitSuccess
  /\ history (fst run)
     = [(user, lit "who is Kirk?"); (model, lit "Captain.")]
  /\ filter (fun ev => match ev with SendMessage _ => true | _ => false end)
            (trace (fst run))
     = [SendMessage (lit "who is Kirk?"); SendMessage (lit "and Spock?")]
  /\ last (trace (fst run)) (Input []) = Print FAREWELL.
Proof. vm_compute. repeat split; reflexivity. Qed.

(* ================================================================== *)
(** ** Further properties: the credential loader *)




(** X2.  With a usable cached credential (valid, or expired with a
    refresh token) the loader does not look at the client-secret file and
    does not start the consent flow: its result is the same whether the
    file is there or not and whatever the flow would do. *)
Theorem usable_token_needs_no_secret (env1 env2 : Env) (w : World) :
  usable_token w = true ->
  (forall c, refresh env1 c = refresh env2 c) ->
  get_sheets_service env1 w = get_sheets_service env2 w.
Proof.
  unfold usable_token, get_sheets_service. intros Hu Hr.
  destruct (token_json w) as [c|]; [|discriminate].
  destruct (valid c); [reflexivity|]. simpl in Hu. rewrite Hu.
  unfold bind, lift. now rewrite Hr.
Qed.

Lemma usable_token_needs_no_secret_witness :
  get_sheets_service
    (mkEnv (fun _ => None) false (fun _ => Ok sample_creds) (Raise boom)
           (fun _ _ => Raise boom))
    (mkWorld (Some expired_creds) [] [])
  = get_sheets_service
      (mkEnv (fun _ => None) true (fun _ => Ok sample_creds)
             (Ok expired_creds) (fun _ _ => Raise boom))
      (mkWorld (Some expired_creds) [] []).
Proof.
  apply usable_token_needs_no_secret.
  - reflexivity.
  - intro c. reflexivity.
Defined.



(* ================================================================== *)
(** ** Further properties: the fetcher and the prompt *)

Lemma fetch_ok_service (env : Env) (w w' : World) (text : str) :
  fetch_roster_context env w = (w', Ok text) ->
  exists w1 c, get_sheets_service env w = (w1, Ok c).
Proof.
  intro H. destruct (get_sheets_service env w) as [w1 [c|e]] eqn:E.
  - eauto.
  - rewrite (fetch_service_failure env w w1 e E) in H. discriminate.
Qed.

(** X4.  The fetcher calls the spreadsheet API once, with the configured
    sheet and range, when the credential step succeeds, and not at all
    when it fails: then the error of that step is the fetcher's. *)
Theorem fetch_calls_api_once (env : Env) (w w' : World)
        (r : result BaseException str) :
  fetch_roster_context env w = (w', r) ->
  (forall w1 c,
      get_sheets_service env w = (w1, Ok c) ->
      exists tail,
        trace w' = trace w ++ SheetsGet (SPREADSHEET_ID env) (RANGE_NAME env)
                               :: tail
        /\ forall a b, ~ In (SheetsGet a b) tail)
  /\ (forall w1 e,
        get_sheets_service env w = (w1, Raise e) ->
        trace w' = trace w /\ r = Raise e).
Proof.
  intro H. split.
  - intros w1 c Hs. rewrite (fetch_after_service env w w1 c Hs) in H.
    apply get_sheets_service_frame in Hs. destruct Hs as [Ht _].
    destruct (execute env (SPREADSHEET_ID env) (RANGE_NAME env))
      as [[[|row rows]|]|e]; injection H as <- <-; simpl; rewrite Ht.
    + exists []. split; [reflexivity|]. intros a b [].
    + exists [CsvWriterows (row :: rows)]. split; [reflexivity|].
      intros a b [F|[]]. discriminate.
    + exists []. split; [reflexivity|]. intros a b [].
    + exists []. split; [reflexivity|]. intros a b [].
  - intros w1 e Hs. rewrite (fetch_service_failure env w w1 e Hs) in H.
    injection H as <- <-.
    apply get_sheets_service_frame in Hs. tauto.
Qed.

Lemma fetch_calls_api_once_witness :
  (forall w1 c,
      get_sheets_service (sample_env (Ok (Some sample_table))) cached_world
      = (w1, Ok c) ->
      exists tail,
        trace (with_trace cached_world
                 [SHEETS_GET (sample_env (Ok (Some sample_table)));
                  CsvWriterows sample_table])
        = trace cached_world
          ++ SheetsGet (SPREADSHEET_ID (sample_env (Ok (Some sample_table))))
                       (RANGE_NAME (sample_env (Ok (Some sample_table))))
             :: tail
        /\ forall a b, ~ In (SheetsGet a b) tail)
  /\ (forall w1 e,
        get_sheets_service (sample_env (Ok (Some sample_table))) cached_world
        = (w1, Raise e) ->
        trace (with_trace cached_world
                 [SHEETS_GET (sample_env (Ok (Some sample_table)));
                  CsvWriterows sample_table])
        = trace cached_world
        /\ Ok (Csv.writerows sample_table) = Raise e).
Proof.
  apply (fetch_calls_api_once (sample_env (Ok (Some sample_table)))
                              cached_world).
  reflexivity.
Defined.

Lemma writerow_ends (row : list str) :
  exists body, Csv.writerow row = body ++ [CR; LF].
Proof. unfold Csv.writerow. eexists. reflexivity. Qed.

Lemma writerows_ends (values : RosterTable) :
  values <> [] -> exists body, Csv.writerows values = body ++ [CR; LF].
Proof.
  intro H. destruct (exists_last H) as (init & row & ->).
  unfold Csv.writerows. rewrite map_app, concat_app. simpl.
  destruct (writerow_ends row) as (body & ->).
  exists (concat (map Csv.writerow init) ++ body).
  now rewrite app_nil_r, app_assoc.
Qed.

Lemma writerows_not_placeholder (values : RosterTable) :
  Csv.writerows values <> NO_DATA /\ (values <> [] -> Csv.writerows values <> []).
Proof.
  destruct values as [|row rows].
  - split; [discriminate|congruence].
  - destruct (writerows_ends (row :: rows)) as (body & E); [discriminate|].
    rewrite E. split.
    + intro F. apply (f_equal (fun l => last l 0%N)) in F.
      change (body ++ [CR; LF]) with (body ++ [CR] ++ [LF]) in F.
      rewrite app_assoc, last_last in F. vm_compute in F. discriminate.
    + intros _ F. apply app_eq_nil in F. destruct F. discriminate.
Qed.

(** X5.  The text the fetcher returns is never empty, and it is the
    placeholder exactly when the reply of the API holds no row: the
    serialization of a table with rows ends with CR LF and so is never
    the placeholder, whatever the cells hold. *)
Theorem placeholder_iff_no_rows (env : Env) (w w' : World) (text : str) :
  fetch_roster_context env w = (w', Ok text) ->
  text <> []
  /\ exists reply,
       execute env (SPREADSHEET_ID env) (RANGE_NAME env) = Ok reply
       /\ (text = NO_DATA <-> no_rows reply).
Proof.
  intro H. destruct (fetch_ok_service env w w' text H) as (w1 & c & Hs).
  rewrite (fetch_after_service env w w1 c Hs) in H.
  destruct (execute env (SPREADSHEET_ID env) (RANGE_NAME env))
    as [[[|row rows]|]|e]; try discriminate; injection H as _ <-.
  - split; [discriminate|]. exists (Some []). split; [reflexivity|].
    unfold no_rows. tauto.
  - destruct (writerows_not_placeholder (row :: rows)) as [Hp Hn].
    split; [apply Hn; discriminate|].
    exists (Some (row :: rows)). split; [reflexivity|].
    split; [contradiction|]. intros [F|F]; discriminate.
  - split; [discriminate|]. exists None. split; [reflexivity|].
    unfold no_rows. tauto.
Qed.

Lemma placeholder_iff_no_rows_witness :
  Csv.writerows sample_table <> []
  /\ exists reply,
       execute (sample_env (Ok (Some sample_table)))
               (SPREADSHEET_ID (sample_env (Ok (Some sample_table))))
               (RANGE_NAME (sample_env (Ok (Some sample_table))))
       = Ok reply
       /\ (Csv.writerows sample_table = NO_DATA <-> no_rows reply).
Proof.
  apply (placeholder_iff_no_rows (sample_env (Ok (Some sample_table)))
           cached_world
           (with_trace cached_world
              [SHEETS_GET (sample_env (Ok (Some sample_table)));
               CsvWriterows sample_table])).
  reflexivity.
Defined.

(** X6.  The serialization loses nothing: two tables with the same CSV
    text are the same table. *)
Theorem writerows_injective (a b : RosterTable) :
  Csv.writerows a = Csv.writerows b -> a = b.
Proof.
  intro H.
  pose proof (CsvProofs.reader_writerows Csv.Universal a) as Ha.
  pose proof (CsvProofs.reader_writerows Csv.Universal b) as Hb.
  rewrite H in Ha. rewrite Ha in Hb. now injection Hb.
Qed.

Lemma writerows_injective_witness : sample_table = sample_table.
Proof. apply writerows_injective. reflexivity. Defined.

Lemma csv_field_plain (f : str) :
  (forall c, In c f -> c <> COMMA /\ c <> DQUOTE /\ c <> CR /\ c <> LF) ->
  csv_field f = f.
Proof.
  intro H. unfold csv_field.
  destruct (needs_quotes f) eqn:E; [|reflexivity].
  apply existsb_exists in E. destruct E as (c & Hc & Hs).
  destruct (H c Hc) as (H1 & H2 & H3 & H4).
  unfold Csv.special, Csv.delimiter, Csv.quotechar in Hs.
  repeat (apply orb_true_iff in Hs; destruct Hs as [Hs|Hs]);
    apply N.eqb_eq in Hs; contradiction.
Qed.

(** X7.  Quoting is minimal: a table whose cells hold no delimiter, no
    quote and no line end, and that has no row made of one empty cell, is
    written as it is: the cells of a row joined by commas, every row ended
    by CR LF, no quote added. *)
Theorem plain_table_verbatim (values : RosterTable) :
  Forall plain_row values ->
  Csv.writerows values
  = concat (map (fun row => join_fields row ++ [CR; LF]) values).
Proof.
  intro H. rewrite writerows_layout. f_equal.
  apply map_ext_in. intros row Hin.
  rewrite Forall_forall in H. destruct (H row Hin) as [Hne Hp].
  assert (E : map csv_field row = row).
  { rewrite <- (map_id row) at 2. apply map_ext_in. intros f Hf.
    apply csv_field_plain. intros c Hc. now apply (Hp f c). }
  unfold csv_row. rewrite E.
  destruct row as [|[|c f] [|g row]]; try reflexivity.
  exfalso. now apply Hne.
Qed.

Lemma plain_row_check (row : list str) :
  row <> [[]] ->
  forallb (fun f => negb (needs_quotes f)) row = true ->
  plain_row row.
Proof.
  intros Hne Hb. split; [exact Hne|]. intros f c Hf Hc.
  rewrite forallb_forall in Hb. specialize (Hb f Hf).
  apply negb_true_iff in Hb.
  assert (Hs : Csv.special c = false).
  { destruct (Csv.special c) eqn:E; [|reflexivity].
    assert (T : needs_quotes f = true) by (apply existsb_exists; eauto).
    congruence. }
  apply CsvProofs.special_false in Hs. destruct Hs as (H1 & H2 & H3 & H4).
  repeat split; now apply N.eqb_neq.
Qed.

Lemma plain_table_verbatim_witness :
  Csv.writerows [[lit "Kirk"; lit "Captain"]; []; [lit "Spock"; []]]
  = concat (map (fun row => join_fields row ++ [CR; LF])
                [[lit "Kirk"; lit "Captain"]; []; [lit "Spock"; []]]).
Proof.
  apply plain_table_verbatim.
  repeat (apply Forall_cons;
          [apply plain_row_check; [discriminate|reflexivity]|]).
  apply Forall_nil.
Defined.

(** X8.  The prompt determines the roster text: two texts with the same
    prompt are the same text. *)
Theorem build_system_prompt_injective (a b : str) :
  build_system_prompt a = build_system_prompt b -> a = b.
Proof.
  unfold build_system_prompt. intro H.
  apply app_inv_head in H. now apply app_inv_tail in H.
Qed.

Lemma build_system_prompt_injective_witness : lit "Name" = lit "Name".
Proof. apply build_system_prompt_injective. reflexivity. Defined.

(* ================================================================== *)
(** ** Further properties: the chat loop and [main] *)

Ltac use_strip :=
  repeat match goal with
         | H : strip _ = _ |- _ => rewrite H
         end.

Section Sessions.
Context `{U : UnicodeData}.

(** One iteration, for every turn: what it adds to the trace and to the
    history, and how it can end. *)
Lemma loop_iteration_frame (t : Turn) (w : World) :
  exists evs h r',
    loop_iteration t w = (mkWorld (token_json w) h (trace w ++ evs), r')
    /\ forallb is_loop_event evs = true
    /\ length (filter is_send evs) <= 1
    /\ (h = history w
        \/ exists line text,
             stdin t = Ok line
             /\ h = history w ++ [(user, strip line); (model, text)]
             /\ strip line <> []
             /\ in_list (lower (strip line)) EXIT_WORDS = false
             /\ length (filter is_send evs) = 1)
    /\ (forall e, r' = Raise e ->
                  e = KeyboardInterrupt
                  /\ (In (Sigint L126) evs \/ In (Sigint L129) evs))
    /\ (r' = Ok Break ->
        (exists s, In (Sigint s) evs)
        \/ exists line, stdin t = Ok line
                        /\ in_list (lower (strip line)) EXIT_WORDS = true).
Proof.
  unfold_loop. cbn [trace history token_json].
  explore t; rewrite <- ?app_assoc;
    (do 3 eexists; split; [reflexivity|];
     split; [reflexivity|];
     split; [simpl; lia|];
     split; [first [left; reflexivity
                   |right; do 2 eexists; split; [reflexivity|];
                    use_strip; repeat split; [discriminate|assumption]]|];
     split; [intros ex Hex; first [discriminate Hex
                                  |injection Hex as <-; split; [reflexivity|];
                                   simpl; tauto]|];
     intro Hbr; first [discriminate Hbr
                      |left; eexists; simpl; eauto; fail
                      |right; eexists; split; [reflexivity|];
                       use_strip; assumption]).
Qed.


Lemma emitted_of (t : Turn) (w : World) (evs : list Event)
      (h : list (Role * str)) (r' : result BaseException Flow) :
  loop_iteration t w = (mkWorld (token_json w) h (trace w ++ evs), r') ->
  emitted t w = evs.
Proof.
  intro H. unfold emitted. rewrite H. simpl. apply skipn_length_app.
Qed.

Lemma input_failure_turn (t : Turn) (w : World) (e : Exception) :
  no_sigint t -> stdin t = Raise e ->
  loop_iteration t w
  = (with_trace w [Input PROMPT; Print (ERROR_REPORT e)], Ok Next).
Proof.
  intros Hq Hin. unfold_loop. rewrite (Hq L115), (Hq L129), Hin.
  cbn [trace history token_json]. unfold with_trace.
  now rewrite <- app_assoc.
Qed.

Lemma harmless_turn (t : Turn) (w : World) :
  harmless t -> exists w', loop_iteration t w = (w', Ok Next).
Proof.
  intros [Hq Hx]. destruct (stdin t) as [line|e] eqn:Hin.
  - rewrite (iteration_quiet t w line Hq Hin), (Hx line eq_refl).
    destruct (strip line); [eauto|].
    destruct (remote t (history w) (p :: s)); eauto.
  - rewrite (input_failure_turn t w e Hq Hin). eauto.
Qed.

Lemma harmless_session (script : list Turn) :
  Forall harmless script ->
  forall w, snd (chat_loop script w) = AWAITING_INPUT.
Proof.
  induction 1 as [|t script Ht _ IH]; intro w; [reflexivity|].
  simpl. destruct (harmless_turn t w Ht) as (w' & ->). apply IH.
Qed.


Lemma whole_turns_app (a b : list (Role * str)) :
  whole_turns a -> whole_turns b -> whole_turns (a ++ b).
Proof.
  revert a. fix IH 1. intros a Ha Hb.
  destruct a as [|[[|] m] [|[[|] r] rest]]; simpl in *; try contradiction.
  - exact Hb.
  - destruct Ha as (H1 & H2 & H3 & H4). repeat split; auto.
Qed.

(** A session, for every script: what it adds to the trace and to the
    history. *)
Lemma chat_loop_frame (script : list Turn) :
  forall w,
  exists evs ext,
    trace (fst (chat_loop script w)) = trace w ++ evs
    /\ history (fst (chat_loop script w)) = history w ++ ext
    /\ token_json (fst (chat_loop script w)) = token_json w
    /\ forallb is_loop_event evs = true
    /\ length (filter is_send evs) <= length script
    /\ whole_turns ext
    /\ length ext <= 2 * length (filter is_send evs).
Proof.
  induction script as [|t script IH]; intro w.
  - exists [], []. simpl. rewrite !app_nil_r. repeat split; auto.
  - destruct (loop_iteration_frame t w)
      as (evs & h & r' & Ei & Hev & Hs & Hh & _).
    assert (Hext : exists ext1,
               h = history w ++ ext1 /\ whole_turns ext1
               /\ length ext1 <= 2 * length (filter is_send evs)).
    { destruct Hh as [->|(line & text & _ & -> & Hne & Hx & Hc)].
      - exists []. rewrite app_nil_r. simpl. repeat split; auto. lia.
      - exists [(user, strip line); (model, text)]. split; [reflexivity|].
        split; [|rewrite Hc; simpl; lia].
        simpl. repeat split; auto. apply strip_is_trimmed. }
    destruct Hext as (ext1 & -> & Hw1 & Hl1).
    simpl. rewrite Ei.
    assert (Stop : exists evs0 ext0,
               trace w ++ evs = trace w ++ evs0
               /\ history w ++ ext1 = history w ++ ext0
               /\ forallb is_loop_event evs0 = true
               /\ length (filter is_send evs0) <= S (length script)
               /\ whole_turns ext0
               /\ length ext0 <= 2 * length (filter is_send evs0)).
    { exists evs, ext1. repeat split; auto; lia. }
    destruct r' as [[|]|e].
    + destruct (IH (mkWorld (token_json w) (history w ++ ext1)
                            (trace w ++ evs)))
        as (evs2 & ext2 & Ht & Hhi & Htok & Hev2 & Hs2 & Hw2 & Hl2).
      exists (evs ++ evs2), (ext1 ++ ext2).
      rewrite Ht, Hhi, Htok. simpl.
      rewrite <- !app_assoc, forallb_app, filter_app, length_app, length_app.
      rewrite Hev, Hev2.
      repeat split; auto; try lia. now apply whole_turns_app.
    + destruct Stop as (evs0 & ext0 & ? & ? & ? & ? & ? & ?).
      exists evs0, ext0. simpl. repeat split; auto.
    + destruct Stop as (evs0 & ext0 & ? & ? & ? & ? & ? & ?).
      exists evs0, ext0. simpl. repeat split; auto.
Qed.

End Sessions.

Section SessionTheorems.
Context `{U : UnicodeData}.


(** X10.  Only an exit word or an interrupt ends a session: over turns
    in which no interrupt arrives and no line read is an exit word, the
    loop is still waiting for input at the end, whatever the sends and
    [input] itself did (answers, failures, end of input), and the process
    is still running. *)
Theorem only_exit_or_interrupt_ends (script : list Turn) (w : World) :
  Forall harmless script ->
  snd (chat_loop script w) = AWAITING_INPUT
  /\ forall env wi,
       main env [] wi = (w, Running) ->
       snd (main env script wi) = Running.
Proof.
  intro H. split; [now apply harmless_session|].
  intros env wi Hm.
  pose proof (main_goes_on env [] script wi w Hm) as E. simpl in E.
  rewrite E. pose proof (harmless_session script H w) as Hs.
  destruct (chat_loop script w) as [w' s]. simpl in *. now subst s.
Qed.


(** X12.  One iteration calls the remote endpoint at most once, whatever
    happens in it, and a session makes at most as many calls as it has
    turns. *)
Theorem at_most_one_send_per_turn :
  (forall t w, length (filter is_send (emitted t w)) <= 1)
  /\ (forall script w,
        exists evs,
          trace (fst (chat_loop script w)) = trace w ++ evs
          /\ length (filter is_send evs) <= length script).
Proof.
  split.
  - intros t w.
    destruct (loop_iteration_frame t w) as (evs & h & r' & Ei & _ & Hs & _).
    now rewrite (emitted_of t w evs h r' Ei).
  - intros script w.
    destruct (chat_loop_frame script w) as (evs & ext & Ht & _ & _ & _ & Hs & _).
    exists evs. auto.
Qed.


(** X14.  Once the loop has ended (OFFLINE or a traceback), nothing more
    is read: the turns that would follow change neither the world nor the
    outcome. *)
Theorem nothing_read_after_the_end (pre more : list Turn) (w : World) :
  snd (chat_loop pre w) <> AWAITING_INPUT ->
  chat_loop (pre ++ more) w = chat_loop pre w.
Proof.
  revert w. induction pre as [|t pre IH]; intros w H; simpl in *.
  - congruence.
  - destruct (loop_iteration t w) as [w' [[|]|e]].
    + now apply IH.
    + reflexivity.
    + reflexivity.
Qed.

(** X15.  In AWAITING_INPUT, when [input] itself raises an exception
    (end of input on stdin is one), the exception is reported like a
    failed send and the loop waits for input again: nothing is sent, the
    history is unchanged, and a stdin that keeps failing never ends the
    loop. *)
Theorem input_failure_not_fatal (pre rest : list Turn) (t : Turn)
        (w0 w : World) (e : Exception) :
  chat_loop pre w0 = (w, AWAITING_INPUT) ->
  stdin t = Raise e -> no_sigint t ->
  let w' := with_trace w [Input PROMPT; Print (ERROR_REPORT e)] in
  chat_loop (pre ++ [t]) w0 = (w', AWAITING_INPUT)
  /\ chat_loop (pre ++ t :: rest) w0 = chat_loop rest w'
  /\ history w' = history w
  /\ forall n, snd (chat_loop (pre ++ repeat t n) w0) = AWAITING_INPUT.
Proof.
  intros Hpre Hin Hq w'.
  assert (Hit := input_failure_turn t w e Hq Hin).
  split; [|split; [|split]].
  - rewrite (chat_loop_app pre [t] w0 w Hpre). simpl. now rewrite Hit.
  - rewrite (chat_loop_app pre (t :: rest) w0 w Hpre). simpl. now rewrite Hit.
  - reflexivity.
  - intro n. rewrite (chat_loop_app pre (repeat t n) w0 w Hpre).
    apply harmless_session. apply Forall_forall. intros t' Ht'.
    apply repeat_spec in Ht'. subst t'. split; [exact Hq|].
    intros line Hl. congruence.
Qed.

Lemma main_online (env : Env) (script : list Turn) (w w1 : World)
      (roster_csv : str) :
  fetch_roster_context env (with_trace w [Print MSG_INIT])
  = (w1, Ok roster_csv) ->
  main env script w
  = (let (w3, s) :=
       chat_loop script
         (mkWorld (token_json w1) []
            (trace w1 ++ [Print (MSG_LOADED roster_csv);
                          StartChat (GEMINI_API_KEY env)
                                    (build_system_prompt roster_csv);
                          Print MSG_ONLINE])) in
     (w3, exit_of s)).
Proof.
  intro H. unfold main. unfold bind at 1. unfold print_ at 1.
  rewrite log_with_trace.
  change ([9889%N] ++ lit " Majel initializing... Connecting to Starfleet Database (Google Sheets)...") with MSG_INIT.
  unfold bind at 1. rewrite H.
  unfold go_online, start_chat, bind, print_, log, ret.
  cbn [trace history token_json].
  rewrite <- !app_assoc. reflexivity.
Qed.

(** X16.  When the fetch succeeds, [main] reports the size of the text,
    opens one chat session, with the configured key, the prompt built
    from exactly the text fetched and an empty history, and from then on
    only prompts, prints, sends and interrupts happen: no second session,
    no further call to the spreadsheet API.  The history at the end is
    made of whole turns only, and token.json is as the fetch left it. *)
Theorem main_opens_one_chat (env : Env) (script : list Turn) (w w1 : World)
        (roster_csv : str) :
  fetch_roster_context env (with_trace w [Print MSG_INIT])
  = (w1, Ok roster_csv) ->
  exists evs,
    trace (fst (main env script w))
    = trace w1 ++ [Print (MSG_LOADED roster_csv);
                   StartChat (GEMINI_API_KEY env)
                             (build_system_prompt roster_csv);
                   Print MSG_ONLINE] ++ evs
    /\ forallb is_loop_event evs = true
    /\ whole_turns (history (fst (main env script w)))
    /\ token_json (fst (main env script w)) = token_json w1.
Proof.
  intro H. rewrite (main_online env script w w1 roster_csv H).
  destruct (chat_loop_frame script
              (mkWorld (token_json w1) []
                 (trace w1 ++ [Print (MSG_LOADED roster_csv);
                               StartChat (GEMINI_API_KEY env)
                                         (build_system_prompt roster_csv);
                               Print MSG_ONLINE])))
    as (evs & ext & Ht & Hh & Htok & Hev & _ & Hw & _).
  destruct (chat_loop script _) as [w3 s]. simpl in *.
  exists evs. rewrite Ht, Hh, Htok, <- app_assoc. auto.
Qed.

End SessionTheorems.


Lemma only_exit_or_interrupt_ends_witness :
  snd (@chat_loop no_case
         [eof_turn; quiet_turn (lit "status") (Raise boom);
          quiet_turn [] (Ok [])]
         fresh_world)
  = AWAITING_INPUT.
Proof.
  apply (@only_exit_or_interrupt_ends no_case
           [eof_turn; quiet_turn (lit "status") (Raise boom);
            quiet_turn [] (Ok [])]
           fresh_world).
  repeat (apply Forall_cons;
          [split; [intro site; reflexivity
                  |intros line Hl; vm_compute in Hl;
                   first [discriminate Hl
                         |injection Hl as <-; vm_compute; reflexivity]]|]).
  apply Forall_nil.
Defined.


Lemma nothing_read_after_the_end_witness :
  @chat_loop no_case
     ([quiet_turn (lit "q") (Ok [])]
        ++ [quiet_turn (lit "more") (Ok (lit "never asked"))])
     fresh_world
  = @chat_loop no_case [quiet_turn (lit "q") (Ok [])] fresh_world.
Proof.
  apply (@nothing_read_after_the_end no_case).
  vm_compute. discriminate.
Defined.

Lemma input_failure_not_fatal_witness :
  @chat_loop no_case ([] ++ [eof_turn]) fresh_world
  = (with_trace fresh_world [Input PROMPT; Print (ERROR_REPORT EOFError)],
     AWAITING_INPUT).
Proof.
  apply (@input_failure_not_fatal no_case [] [] eof_turn fresh_world
                                  fresh_world EOFError).
  - reflexivity.
  - reflexivity.
  - intro site. reflexivity.
Defined.

Lemma main_opens_one_chat_witness :
  @whole_turns no_case
     (history (fst (@main no_case (sample_env (Ok (Some sample_table)))
                          [quiet_turn (lit "hello") (Ok (lit "Hi."))]
                          cached_world))).
Proof.
  destruct (@main_opens_one_chat no_case
              (sample_env (Ok (Some sample_table)))
              [quiet_turn (lit "hello") (Ok (lit "Hi."))]
              cached_world
              (with_trace (with_trace cached_world [Print MSG_INIT])
                 [SHEETS_GET (sample_env (Ok (Some sample_table)));
                  CsvWriterows sample_table])
              (Csv.writerows sample_table) eq_refl)
    as (evs & _ & _ & H & _).
  exact H.
Defined.
